(** * The simulated annotator of XMem/inference/interact/fbrs/inference/clicker.py

    A shallow embedding of the [Clicker] class and of the NumPy operations it
    uses, followed by the properties of the click-selection algorithm and of
    the click-history state.

    Conventions of the embedding.
    - A two-dimensional NumPy array is its shape together with its flat,
      row-major (C order) buffer.
    - A method of [Clicker] is a function from the object's state to an
      outcome (a value or a raised exception) and the state left behind; a
      method that raises after it has already mutated the object leaves the
      mutated state, as in Python.
    - SciPy's [distance_transform_edt] yields floating-point Euclidean
      distances.  The embedding keeps the exact squared distance, an integer:
      the square root is strictly increasing, so the maximum, the comparison
      [>] and the test [==] against the maximum, which are the only uses the
      class makes of the distances, are the same on the squares. *)

From stdpp Require Import base numbers list.

Set Default Proof Using "Type".

(** ** Exceptions *)

Inductive exn : Type :=
  | AssertionError
  | ValueError
  | IndexError
  | TypeError
  | AttributeError.

Inductive outcome (A : Type) : Type :=
  | Ok (a : A)
  | Raise (e : exn).
Arguments Ok {A} a.
Arguments Raise {A} e.

Definition obind {A B} (m : outcome A) (f : A → outcome B) : outcome B :=
  match m with
  | Ok a => f a
  | Raise e => Raise e
  end.

Global Instance outcome_ret : MRet outcome := @Ok.
Global Instance outcome_bind : MBind outcome := λ A B f m, obind m f.

(** ** Two-dimensional arrays *)

Module Np.

Record ndarray (A : Type) : Type := mk_ndarray {
  nrows : nat;
  ncols : nat;
  data : list A
}.
Arguments mk_ndarray {A} nrows ncols data.
Arguments nrows {A} n.
Arguments ncols {A} n.
Arguments data {A} n.

Definition shape {A} (m : ndarray A) : nat * nat := (nrows m, ncols m).

(** A well-formed array owns exactly [nrows * ncols] elements. *)
Definition wf {A} (m : ndarray A) : Prop := length (data m) = nrows m * ncols m.

(** The array of shape [(h, w)] whose element [(y, x)] is [f y x]. *)
Definition tabulate {A} (h w : nat) (f : nat → nat → A) : ndarray A :=
  mk_ndarray h w ((λ i, f (Nat.div i w) (Nat.modulo i w)) <$> seq 0 (h * w)).

(** [m[y, x]] for indices in range. *)
Definition item {A} (m : ndarray A) (y x : nat) : option A :=
  if decide (y < nrows m ∧ x < ncols m) then data m !! (y * ncols m + x) else None.

Definition item_total `{Inhabited A} (m : ndarray A) (y x : nat) : A :=
  data m !!! (y * ncols m + x).

Definition map {A B} (f : A → B) (m : ndarray A) : ndarray B :=
  mk_ndarray (nrows m) (ncols m) (f <$> data m).

(** NumPy's broadcasting rule for one axis: equal lengths, or one of them 1. *)
Definition broadcast_dim (n m : nat) : option nat :=
  if decide (n = m) then Some n
  else if decide (n = 1) then Some m
  else if decide (m = 1) then Some n
  else None.

Definition broadcast_shape (s t : nat * nat) : option (nat * nat) :=
  match broadcast_dim s.1 t.1, broadcast_dim s.2 t.2 with
  | Some h, Some w => Some (h, w)
  | _, _ => None
  end.

(** Reading a broadcast operand: an axis of length 1 is repeated. *)
Definition bitem `{Inhabited A} (m : ndarray A) (y x : nat) : A :=
  item_total m (if decide (nrows m = 1) then 0 else y)
               (if decide (ncols m = 1) then 0 else x).

(** An elementwise binary operation; operands that cannot be broadcast
    together raise [ValueError]. *)
Definition zip_with `{Inhabited A, Inhabited B} {C}
    (f : A → B → C) (a : ndarray A) (b : ndarray B) : outcome (ndarray C) :=
  match broadcast_shape (shape a) (shape b) with
  | Some (h, w) => Ok (tabulate h w (λ y x, f (bitem a y x) (bitem b y x)))
  | None => Raise ValueError
  end.

Definition logical_and : ndarray bool → ndarray bool → outcome (ndarray bool) :=
  zip_with andb.

Definition logical_not : ndarray bool → ndarray bool := map negb.

(** [np.pad(m, ((1, 1), (1, 1)), "constant")]: a border of [False]. *)
Definition pad1 (m : ndarray bool) : ndarray bool :=
  tabulate (nrows m + 2) (ncols m + 2)
    (λ y x, if decide ((1 ≤ y ≤ nrows m) ∧ (1 ≤ x ≤ ncols m))
            then item_total m (y - 1) (x - 1) else false).

(** [m[1:-1, 1:-1]]. *)
Definition crop1 `{Inhabited A} (m : ndarray A) : ndarray A :=
  tabulate (nrows m - 2) (ncols m - 2) (λ y x, item_total m (y + 1) (x + 1)).

(** [dt * not_clicked_map]: a distance times a boolean (0 or 1). *)
Definition mul_mask : ndarray Z → ndarray bool → outcome (ndarray Z) :=
  zip_with (λ (d : Z) (b : bool), if b then d else 0%Z).

(** [np.ones_like(m, dtype=bool)]. *)
Definition ones_like {A} (m : ndarray A) : ndarray bool :=
  mk_ndarray (nrows m) (ncols m) (replicate (nrows m * ncols m) true).

(** [np.max(m)]; the maximum of a zero-size array raises [ValueError]. *)
Definition max (m : ndarray Z) : outcome Z :=
  match data m with
  | [] => Raise ValueError
  | v :: vs => Ok (foldl Z.max v vs)
  end.

(** [np.where(m == v)] followed by [coords_y[0], coords_x[0]]: the indices
    come out in row-major order, so the first pair is the one of the first
    matching element of the flat buffer; an empty result makes the
    subscript [[0]] raise [IndexError]. *)
Definition where_first (m : ndarray Z) (v : Z) : outcome (nat * nat) :=
  match list_find (λ w, w = v) (data m) with
  | Some (i, _) => Ok (Nat.div i (ncols m), Nat.modulo i (ncols m))
  | None => Raise IndexError
  end.

(** An integer subscript along an axis of length [n]: negative subscripts
    count from the end, anything outside [[-n, n)] is out of bounds. *)
Definition norm_index (n : nat) (i : Z) : option nat :=
  if decide (0 ≤ i < Z.of_nat n)%Z then Some (Z.to_nat i)
  else if decide (- Z.of_nat n ≤ i < 0)%Z then Some (Z.to_nat (i + Z.of_nat n))
  else None.

(** The pixel a coordinate pair designates in an array of the shape of [m]. *)
Definition pixel {A} (m : ndarray A) (c : Z * Z) : option (nat * nat) :=
  match norm_index (nrows m) c.1, norm_index (ncols m) c.2 with
  | Some y, Some x => Some (y, x)
  | _, _ => None
  end.

(** [m[c[0], c[1]] = v]. *)
Definition setitem {A} (m : ndarray A) (c : Z * Z) (v : A) : outcome (ndarray A) :=
  match pixel m c with
  | Some (y, x) =>
      Ok (mk_ndarray (nrows m) (ncols m) (<[y * ncols m + x := v]> (data m)))
  | None => Raise IndexError
  end.

End Np.

(** ** The Euclidean distance transform (SciPy), squared *)

Definition sq_dist (p q : nat * nat) : Z :=
  ((Z.of_nat p.1 - Z.of_nat q.1) ^ 2 + (Z.of_nat p.2 - Z.of_nat q.2) ^ 2)%Z.

(** The pixels of a [h] by [w] array in row-major order. *)
Definition pixels (h w : nat) : list (nat * nat) :=
  (λ i, (Nat.div i w, Nat.modulo i w)) <$> seq 0 (h * w).

(** The background (zero) pixels of a mask. *)
Definition zero_pixels (m : Np.ndarray bool) : list (nat * nat) :=
  filter (λ p, Np.item_total m p.1 p.2 = false) (pixels (Np.nrows m) (Np.ncols m)).

(** Squared distance from [p] to the nearest pixel of [qs].  The class only
    transforms padded masks, whose border is background, so [qs] is never
    empty there; 0 stands for the case that does not arise. *)
Definition nearest_sq (p : nat * nat) (qs : list (nat * nat)) : Z :=
  match qs with
  | [] => 0%Z
  | q :: qs' => foldl (λ d q', Z.min d (sq_dist p q')) (sq_dist p q) qs'
  end.

(** [distance_transform_edt(m)], squared: 0 on the background, and on a
    foreground pixel the squared distance to the nearest background pixel. *)
Definition distance_transform_edt_sq (m : Np.ndarray bool) : Np.ndarray Z :=
  let zs := zero_pixels m in
  Np.tabulate (Np.nrows m) (Np.ncols m)
    (λ y x, if Np.item_total m y x then nearest_sq (y, x) zs else 0%Z).

(** ** Clicks and the state of a Clicker *)

Record Click : Type := mk_Click {
  is_positive : bool;
  coords : Z * Z
}.

Global Instance Click_eq_dec : EqDecision Click.
Proof. solve_decision. Defined.

(** The attributes of a [Clicker] object.  An attribute that [__init__] does
    not assign (those of a Clicker without ground truth) is [None], as is
    [gt_mask] when it holds Python's [None]. *)
Record Clicker : Type := mk_Clicker {
  gt_mask : option (Np.ndarray bool);
  not_ignore_mask : option (Np.ndarray bool);
  not_clicked_map : option (Np.ndarray bool);
  num_pos_clicks : Z;
  num_neg_clicks : Z;
  clicks_list : list Click
}.

Definition set_not_clicked_map (m : Np.ndarray bool) (self : Clicker) : Clicker :=
  mk_Clicker (gt_mask self) (not_ignore_mask self) (Some m)
             (num_pos_clicks self) (num_neg_clicks self) (clicks_list self).

Definition set_num_pos_clicks (n : Z) (self : Clicker) : Clicker :=
  mk_Clicker (gt_mask self) (not_ignore_mask self) (not_clicked_map self)
             n (num_neg_clicks self) (clicks_list self).

Definition set_num_neg_clicks (n : Z) (self : Clicker) : Clicker :=
  mk_Clicker (gt_mask self) (not_ignore_mask self) (not_clicked_map self)
             (num_pos_clicks self) n (clicks_list self).

Definition set_clicks_list (l : list Click) (self : Clicker) : Clicker :=
  mk_Clicker (gt_mask self) (not_ignore_mask self) (not_clicked_map self)
             (num_pos_clicks self) (num_neg_clicks self) l.

(** ** Methods: state and exceptions *)

Definition M (A : Type) : Type := Clicker → outcome A * Clicker.

Definition ret {A} (a : A) : M A := λ self, (Ok a, self).

Definition raise {A} (e : exn) : M A := λ self, (Raise e, self).

Definition bind {A B} (m : M A) (f : A → M B) : M B := λ self,
  match m self with
  | (Ok a, self') => f a self'
  | (Raise e, self') => (Raise e, self')
  end.

(** A computation that only reads the object. *)
Definition read {A} (f : Clicker → outcome A) : M A := λ self, (f self, self).

Definition modify (f : Clicker → Clicker) : M unit := λ self, (Ok tt, f self).

Global Instance M_ret : MRet M := @ret.
Global Instance M_bind : MBind M := λ A B f m, bind m f.

(** [for x in xs: body(x)] *)
Fixpoint for_each {A} (xs : list A) (body : A → M unit) : M unit :=
  match xs with
  | [] => ret tt
  | x :: xs' => bind (body x) (λ _, for_each xs' body)
  end.

(** Reading an attribute that may be unset. *)
Definition attr {A} (a : option A) : outcome A :=
  match a with
  | Some v => Ok v
  | None => Raise AttributeError
  end.

Module Clicker_methods.

(** Lines 91-98. *)
Definition reset_clicks : M unit :=
  self ← read Ok;
  match gt_mask self with
  | Some gt => modify (set_not_clicked_map (Np.ones_like gt))
  | None => ret tt
  end;;
  modify (set_num_pos_clicks 0);;
  modify (set_num_neg_clicks 0);;
  modify (set_clicks_list []).

(** Lines 67-77. *)
Definition add_click (click : Click) : M unit :=
  let coords := coords click in
  (if is_positive click
   then modify (λ self, set_num_pos_clicks (num_pos_clicks self + 1) self)
   else modify (λ self, set_num_neg_clicks (num_neg_clicks self + 1) self));;
  modify (λ self, set_clicks_list (clicks_list self ++ [click]) self);;
  self ← read Ok;
  match gt_mask self with
  | Some _ =>
      m ← read (λ self, nc ← attr (not_clicked_map self);
                        Np.setitem nc coords false);
      modify (set_not_clicked_map m)
  | None => ret tt
  end.

(** [self.clicks_list.pop()]: removes and returns the last element; popping
    from an empty list raises [IndexError]. *)
Definition pop : M Click := λ self,
  match last (clicks_list self) with
  | Some click => (Ok click, set_clicks_list (removelast (clicks_list self)) self)
  | None => (Raise IndexError, self)
  end.

(** Lines 79-89. *)
Definition _remove_last_click : M unit :=
  click ← pop;
  let coords := coords click in
  (if is_positive click
   then modify (λ self, set_num_pos_clicks (num_pos_clicks self - 1) self)
   else modify (λ self, set_num_neg_clicks (num_neg_clicks self - 1) self));;
  self ← read Ok;
  match gt_mask self with
  | Some _ =>
      m ← read (λ self, nc ← attr (not_clicked_map self);
                        Np.setitem nc coords true);
      modify (set_not_clicked_map m)
  | None => ret tt
  end.

(** Lines 33-54 of [_get_click], with [padding=True] (its default, and the
    only way the class calls it): the two distance maps, already multiplied
    by [not_clicked_map].  A [gt_mask] that is [None] is no operand for
    [np.logical_and]. *)
Definition masked_distances (pred_mask : Np.ndarray bool) (self : Clicker)
    : outcome (Np.ndarray Z * Np.ndarray Z) :=
  let operand (a : option (Np.ndarray bool)) :=
    match a with Some g => Ok g | None => Raise TypeError end in
  gt ← operand (gt_mask self);
  fn0 ← Np.logical_and gt (Np.logical_not pred_mask);
  not_ignore ← attr (not_ignore_mask self);
  fn_mask ← Np.logical_and fn0 not_ignore;
  gt ← operand (gt_mask self);
  fp0 ← Np.logical_and (Np.logical_not gt) pred_mask;
  not_ignore ← attr (not_ignore_mask self);
  fp_mask ← Np.logical_and fp0 not_ignore;
  let fn_mask := Np.pad1 fn_mask in
  let fp_mask := Np.pad1 fp_mask in
  let fn_mask_dt := distance_transform_edt_sq fn_mask in
  let fp_mask_dt := distance_transform_edt_sq fp_mask in
  let fn_mask_dt := Np.crop1 fn_mask_dt in
  let fp_mask_dt := Np.crop1 fp_mask_dt in
  not_clicked ← attr (not_clicked_map self);
  fn_mask_dt ← Np.mul_mask fn_mask_dt not_clicked;
  not_clicked ← attr (not_clicked_map self);
  fp_mask_dt ← Np.mul_mask fp_mask_dt not_clicked;
  Ok (fn_mask_dt, fp_mask_dt).

(** Lines 32-65. *)
Definition _get_click (pred_mask : Np.ndarray bool) (self : Clicker) : outcome Click :=
  '(fn_mask_dt, fp_mask_dt) ← masked_distances pred_mask self;
  fn_max_dist ← Np.max fn_mask_dt;
  fp_max_dist ← Np.max fp_mask_dt;
  let is_positive := (fn_max_dist >? fp_max_dist)%Z in
  '(coords_y, coords_x) ←
    (if is_positive then Np.where_first fn_mask_dt fn_max_dist
     else Np.where_first fp_mask_dt fp_max_dist);
  Ok (mk_Click is_positive (Z.of_nat coords_y, Z.of_nat coords_x)).

(** Lines 24-27. *)
Definition make_next_click (pred_mask : Np.ndarray bool) : M unit :=
  self ← read Ok;
  match gt_mask self with
  | None => raise AssertionError
  | Some _ =>
      click ← read (_get_click pred_mask);
      add_click click
  end.

(** Lines 29-30: the slice [clicks_list[:clicks_limit]].  A missing limit
    keeps everything, a negative one drops that many clicks from the end. *)
Definition get_clicks (clicks_limit : option Z) : M (list Click) :=
  read (λ self,
    Ok match clicks_limit with
       | None => clicks_list self
       | Some k =>
           if decide (0 ≤ k)%Z then take (Z.to_nat k) (clicks_list self)
           else take (length (clicks_list self) - Z.to_nat (- k)) (clicks_list self)
       end).

(** Lines 100-101; a deep copy of a list of immutable values is the list. *)
Definition get_state : M (list Click) := read (λ self, Ok (clicks_list self)).

(** Lines 103-106. *)
Definition set_state (state : list Click) : M unit :=
  reset_clicks;;
  for_each state add_click.

(** Lines 108-109. *)
Definition __len__ : M nat := read (λ self, Ok (length (clicks_list self))).

(** Lines 11-22: the constructor, run on an object that has no attribute
    yet.  [gt_mask] is the label map, if any. *)
Definition blank : Clicker := mk_Clicker None None None 0 0 [].

Definition __init__ (gt_mask : option (Np.ndarray Z)) (init_clicks : option (list Click))
    (ignore_label : Z) : M unit :=
  match gt_mask with
  | Some lbl =>
      modify (λ self,
        mk_Clicker (Some (Np.map (λ v, bool_decide (v = 1%Z)) lbl))
                   (Some (Np.map (λ v, bool_decide (v ≠ ignore_label)) lbl))
                   (not_clicked_map self) (num_pos_clicks self)
                   (num_neg_clicks self) (clicks_list self))
  | None =>
      modify (λ self,
        mk_Clicker None (not_ignore_mask self) (not_clicked_map self)
                   (num_pos_clicks self) (num_neg_clicks self) (clicks_list self))
  end;;
  reset_clicks;;
  match init_clicks with
  | Some clicks => for_each clicks add_click
  | None => ret tt
  end.

(** [Clicker(gt_mask, init_clicks, ignore_label)]: the constructed object,
    or the exception the constructor raised. *)
Definition new (gt_mask : option (Np.ndarray Z)) (init_clicks : option (list Click))
    (ignore_label : Z) : outcome Clicker :=
  match __init__ gt_mask init_clicks ignore_label blank with
  | (Ok _, self) => Ok self
  | (Raise e, _) => Raise e
  end.

End Clicker_methods.
Export Clicker_methods.

(** ** Calls, and the states a Clicker can be in *)

Inductive call : Type :=
  | MakeNextClick (pred_mask : Np.ndarray bool)
  | GetClicks (clicks_limit : option Z)
  | AddClick (click : Click)
  | RemoveLastClick
  | ResetClicks
  | GetState
  | SetState (state : list Click)
  | Len.

Definition discard {A} (m : M A) : M unit := _ ← m; ret tt.

Definition run_call (c : call) : M unit :=
  match c with
  | MakeNextClick pred_mask => make_next_click pred_mask
  | GetClicks clicks_limit => discard (get_clicks clicks_limit)
  | AddClick click => add_click click
  | RemoveLastClick => _remove_last_click
  | ResetClicks => reset_clicks
  | GetState => discard get_state
  | SetState state => set_state state
  | Len => discard __len__
  end.

(** A state is reachable when the constructor returned it, or when a method
    call on a reachable object leaves it behind, whether the call returned
    or raised. *)
Inductive reachable : Clicker → Prop :=
  | reachable_new gt init_clicks ignore_label self :
      new gt init_clicks ignore_label = Ok self → reachable self
  | reachable_call c self r self' :
      reachable self → run_call c self = (r, self') → reachable self'.

(** * Vocabulary of the properties *)

(** ** Maxima and row-major order *)

(** [v] is the maximum of the array [m]. *)
Definition is_maximum (m : Np.ndarray Z) (v : Z) : Prop :=
  (∃ y x, Np.item m y x = Some v) ∧
  (∀ y x w, Np.item m y x = Some w → (w ≤ v)%Z).

(** [(y, x)] is the first pixel in row-major order (smallest row, then
    smallest column) at which [m] holds [v]. *)
Definition row_major_first (m : Np.ndarray Z) (v : Z) (y x : nat) : Prop :=
  Np.item m y x = Some v ∧
  (∀ y' x', Np.item m y' x' = Some v → y < y' ∨ (y = y' ∧ x ≤ x')).

(** [(y, x)] is the first pixel in row-major order still marked as not yet
    clicked. *)
Definition first_not_clicked (nc : Np.ndarray bool) (y x : nat) : Prop :=
  Np.item nc y x = Some true ∧
  (∀ y' x', Np.item nc y' x' = Some true → y < y' ∨ (y = y' ∧ x ≤ x')).

(** All the elements of an array are non-negative. *)
Definition nonneg (m : Np.ndarray Z) : Prop := Forall (λ v, 0 ≤ v)%Z (Np.data m).

(** [m] vanishes wherever [nc] is not true. *)
Definition masked_by (nc : Np.ndarray bool) (m : Np.ndarray Z) : Prop :=
  ∀ y x v, Np.item m y x = Some v → v ≠ 0%Z → Np.item nc y x = Some true.

(** ** The click history *)

(** Number of clicks of a polarity in a click list. *)
Definition count_clicks (positive : bool) (l : list Click) : Z :=
  Z.of_nat (length (filter (λ c, is_positive c = positive) l)).

(** The pixels the clicks of a list designate in the map [nc]. *)
Definition click_pixels (nc : Np.ndarray bool) (l : list Click) : list (option (nat * nat)) :=
  (λ c, Np.pixel nc (coords c)) <$> l.

(** The invariant of the data model: the counters add up to the length of
    the click list, and [not_clicked_map] is false exactly at the pixels the
    clicks of the list designate. *)
Definition click_state_invariant (self : Clicker) : Prop :=
  (num_pos_clicks self + num_neg_clicks self = Z.of_nat (length (clicks_list self)))%Z ∧
  ∀ nc, not_clicked_map self = Some nc →
    ∀ y x, y < Np.nrows nc → x < Np.ncols nc →
      (Some (y, x) ∈ click_pixels nc (clicks_list self) → Np.item nc y x = Some false) ∧
      (Some (y, x) ∉ click_pixels nc (clicks_list self) → Np.item nc y x = Some true).

(** The calls of the click-history interface. *)
Inductive history_call : Type :=
  | HAddClick (click : Click)
  | HRemoveLastClick
  | HResetClicks.

Definition run_history_call (c : history_call) : M unit :=
  match c with
  | HAddClick click => add_click click
  | HRemoveLastClick => _remove_last_click
  | HResetClicks => reset_clicks
  end.

(** Every [add_click] of the sequence designates a pixel that no click of
    the list designates at the time of the call. *)
Fixpoint fresh_adds (calls : list history_call) (self : Clicker) : Prop :=
  match calls with
  | [] => True
  | c :: calls' =>
      match c with
      | HAddClick click =>
          ∀ nc, not_clicked_map self = Some nc →
            Np.pixel nc (coords click) ∉ click_pixels nc (clicks_list self)
      | _ => True
      end ∧ fresh_adds calls' (run_history_call c self).2
  end.

(** At no call of the sequence of [make_next_click] calls are both maxima 0. *)
Fixpoint never_both_zero (preds : list (Np.ndarray bool)) (self : Clicker) : Prop :=
  match preds with
  | [] => True
  | pred :: preds' =>
      (∀ fn fp, masked_distances pred self = Ok (fn, fp) →
         ¬ (is_maximum fn 0%Z ∧ is_maximum fp 0%Z)) ∧
      never_both_zero preds' (make_next_click pred self).2
  end.

(** The object after the calls, each run to its end whether it returns or
    raises. *)
Definition run_calls (calls : list call) (self : Clicker) : Clicker :=
  foldl (λ s c, (run_call c s).2) self calls.

(** ** Invariants *)

(** A property of the object that a method keeps, whether it returns or
    raises. *)
Definition preserves {A} (P : Clicker → Prop) (m : M A) : Prop :=
  ∀ self, P self → P (m self).2.

(** The Clicker has no ground truth. *)
Definition no_gt (self : Clicker) : Prop := gt_mask self = None.

(** The state a Clicker with ground truth is in: all its masks have the
    shape of the ground truth. *)
Definition masks_shaped (self : Clicker) : Prop :=
  ∀ g, gt_mask self = Some g →
    ∃ ni nc, not_ignore_mask self = Some ni ∧ not_clicked_map self = Some nc ∧
             Np.shape ni = Np.shape g ∧ Np.shape nc = Np.shape g ∧ Np.wf nc.

(** What holds in every reachable state: the masks have the shape of the
    ground truth, the counters count the clicks of each polarity, and a
    pixel marked as clicked is the pixel of some click of the list. *)
Definition consistent (self : Clicker) : Prop :=
  masks_shaped self ∧
  (gt_mask self = None → not_clicked_map self = None) ∧
  num_pos_clicks self = count_clicks true (clicks_list self) ∧
  num_neg_clicks self = count_clicks false (clicks_list self) ∧
  (∀ nc y x, not_clicked_map self = Some nc → Np.item nc y x = Some false →
     Some (y, x) ∈ click_pixels nc (clicks_list self)).

(** Every click of the list designates a pixel of the map, and that pixel
    is marked as clicked. *)
Definition clicks_marked (self : Clicker) : Prop :=
  ∀ nc click, not_clicked_map self = Some nc → click ∈ clicks_list self →
    ∃ y x, Np.pixel nc (coords click) = Some (y, x) ∧ Np.item nc y x = Some false.

(** No two clicks of the list designate the same pixel. *)
Definition clicks_distinct (self : Clicker) : Prop :=
  ∀ nc, not_clicked_map self = Some nc → NoDup (click_pixels nc (clicks_list self)).

Definition tidy (self : Clicker) : Prop :=
  consistent self ∧ clicks_marked self ∧ clicks_distinct self.

(** ** Intermediate objects of the methods *)

(** The object after the counter update and the append of [add_click]. *)
Definition counted (click : Click) (self : Clicker) : Clicker :=
  set_clicks_list (clicks_list self ++ [click])
    (if is_positive click
     then set_num_pos_clicks (num_pos_clicks self + 1) self
     else set_num_neg_clicks (num_neg_clicks self + 1) self).

(** The object after the pop and the counter update of [_remove_last_click]. *)
Definition uncounted (click : Click) (rest : list Click) (self : Clicker) : Clicker :=
  if is_positive click
  then set_num_pos_clicks (num_pos_clicks self - 1) (set_clicks_list rest self)
  else set_num_neg_clicks (num_neg_clicks self - 1) (set_clicks_list rest self).

(** The object after [reset_clicks]. *)
Definition cleared (self : Clicker) : Clicker :=
  mk_Clicker (gt_mask self) (not_ignore_mask self)
    (match gt_mask self with
     | Some gt => Some (Np.ones_like gt)
     | None => not_clicked_map self
     end) 0 0 [].

(** The array [m] after [m[y, x] = v]. *)
Definition stored {A} (m : Np.ndarray A) (y x : nat) (v : A) : Np.ndarray A :=
  Np.mk_ndarray (Np.nrows m) (Np.ncols m) (<[y * Np.ncols m + x := v]> (Np.data m)).

(** ** Statements that fail as they stand *)

(** A predicted mask whose shape differs from the ground truth's makes
    [make_next_click] fail, before anything is computed or changed. *)
Definition shape_mismatch_fails (pred : Np.ndarray bool) (self : Clicker) : Prop :=
  ∀ g, gt_mask self = Some g → Np.shape pred ≠ Np.shape g →
    ∃ e, make_next_click pred self = (Raise e, self).

(** With both maxima 0, the selected click is negative and sits at the first
    pixel, in row-major order, among those still marked as not yet clicked. *)
Definition zero_maxima_select_first_not_clicked
    (pred : Np.ndarray bool) (self : Clicker) : Prop :=
  ∀ g nc fn fp,
    gt_mask self = Some g → not_clicked_map self = Some nc →
    masked_distances pred self = Ok (fn, fp) →
    is_maximum fn 0%Z → is_maximum fp 0%Z →
    ∃ click y x,
      _get_click pred self = Ok click ∧ is_positive click = false ∧
      coords click = (Z.of_nat y, Z.of_nat x) ∧ first_not_clicked nc y x.

(** [add_click(c)] followed by [remove_last_click()] leaves the object
    exactly as it was. *)
Definition add_then_remove_restores (click : Click) (self : Clicker) : Prop :=
  (add_click click;; _remove_last_click) self = (Ok tt, self).

(** [set_state(get_state())] leaves the object as it was. *)
Definition state_round_trip (self : Clicker) : Prop :=
  (state ← get_state; set_state state) self = (Ok tt, self).

(** Once the calls have returned, the invariant of the data model holds. *)
Definition history_keeps_invariant (calls : list history_call) (self0 : Clicker) : Prop :=
  ∀ self, for_each calls run_history_call self0 = (Ok tt, self) →
    click_state_invariant self.

(** ** Sample inputs and objects *)

(** A 2 by 2 label map, all foreground. *)
Definition ones22 : Np.ndarray Z := Np.mk_ndarray 2 2 [1; 1; 1; 1]%Z.

(** The constant 2 by 2 masks. *)
Definition all22 (b : bool) : Np.ndarray bool := Np.mk_ndarray 2 2 [b; b; b; b].

Definition zeros22 : Np.ndarray Z := Np.mk_ndarray 2 2 [0; 0; 0; 0]%Z.

(** A 1 by 1 and a 3 by 3 predicted mask. *)
Definition pred11 : Np.ndarray bool := Np.mk_ndarray 1 1 [true].
Definition pred33 : Np.ndarray bool := Np.mk_ndarray 3 3 (replicate 9 true).

(** A 10 by 10 label map with a filled 5 by 5 square, and the all-false
    prediction of that shape. *)
Definition square10 : Np.ndarray Z :=
  Np.tabulate 10 10 (λ y x, if decide ((2 ≤ y ≤ 6) ∧ (2 ≤ x ≤ 6)) then 1%Z else 0%Z).
Definition none10 : Np.ndarray bool := Np.mk_ndarray 10 10 (replicate 100 false).

Definition five_clicks : list Click :=
  [mk_Click true (0, 0); mk_Click false (0, 1); mk_Click true (1, 0);
   mk_Click false (1, 1); mk_Click true (0, 1)]%Z.

(** [Clicker(gt_mask=np.ones((2, 2)))]. *)
Definition clicker22 : Clicker :=
  Eval vm_compute in (__init__ (Some ones22) None (-1) blank).2.

(** [Clicker()], without ground truth. *)
Definition clicker_no_gt : Clicker :=
  Eval vm_compute in (__init__ None None (-1) blank).2.

(** [Clicker(init_clicks=five_clicks)]. *)
Definition clicker_five : Clicker :=
  Eval vm_compute in (__init__ None (Some five_clicks) (-1) blank).2.

(** [clicker22] after [make_next_click] on an all-false prediction: one
    positive click, at the origin. *)
Definition clicker22_clicked : Clicker :=
  Eval vm_compute in (make_next_click (all22 false) clicker22).2.

(** [clicker22] after two clicks on the origin, the second one undone. *)
Definition clicker22_undone : Clicker :=
  Eval vm_compute in
    run_calls [AddClick (mk_Click true (0, 0)%Z); AddClick (mk_Click true (0, 0)%Z);
               RemoveLastClick] clicker22.

(** [Clicker(gt_mask=square10)]. *)
Definition clicker_square : Clicker :=
  Eval vm_compute in (__init__ (Some square10) None (-1) blank).2.

(** ** Vocabulary of the further properties *)

(** The ground-truth masks that the constructor computes from a label map. *)
Definition foreground (lbl : Np.ndarray Z) : Np.ndarray bool :=
  Np.map (λ v, bool_decide (v = 1%Z)) lbl.

Definition not_ignored (lbl : Np.ndarray Z) (ignore_label : Z) : Np.ndarray bool :=
  Np.map (λ v, bool_decide (v ≠ ignore_label)) lbl.

(** The object that [Clicker(gt_mask, None, ignore_label)] constructs. *)
Definition fresh (gt : option (Np.ndarray Z)) (ignore_label : Z) : Clicker :=
  match gt with
  | Some lbl =>
      mk_Clicker (Some (foreground lbl)) (Some (not_ignored lbl ignore_label))
                 (Some (Np.ones_like (foreground lbl))) 0 0 []
  | None => blank
  end.

(** Two objects hold the same ground truth. *)
Definition same_ground_truth (a b : Clicker) : Prop :=
  gt_mask a = gt_mask b ∧ not_ignore_mask a = not_ignore_mask b.

(** The prediction misses the foreground at [(y, x)]: the label is 1, it is
    not the ignore label, and the prediction is false. *)
Definition false_negative_at (lbl : Np.ndarray Z) (ignore_label : Z)
    (pred : Np.ndarray bool) (y x : nat) : Prop :=
  ∃ v, Np.item lbl y x = Some v ∧ v = 1%Z ∧ v ≠ ignore_label ∧
       Np.item pred y x = Some false.

(** The prediction covers background at [(y, x)]: the label is neither 1
    nor the ignore label, and the prediction is true. *)
Definition false_positive_at (lbl : Np.ndarray Z) (ignore_label : Z)
    (pred : Np.ndarray bool) (y x : nat) : Prop :=
  ∃ v, Np.item lbl y x = Some v ∧ v ≠ 1%Z ∧ v ≠ ignore_label ∧
       Np.item pred y x = Some true.

(** [np.logical_and(a, b)] for operands of one shape. *)
Definition and_mask (a b : Np.ndarray bool) : Np.ndarray bool :=
  Np.tabulate (Np.nrows a) (Np.ncols a) (λ y x, Np.bitem a y x && Np.bitem b y x).

(** Lines 42-51: pad, transform, crop. *)
Definition depth (m : Np.ndarray bool) : Np.ndarray Z :=
  Np.crop1 (distance_transform_edt_sq (Np.pad1 m)).

(** Lines 53-54: [dt * not_clicked_map] for operands of one shape. *)
Definition masked_depth (m nc : Np.ndarray bool) : Np.ndarray Z :=
  Np.tabulate (Np.nrows (depth m)) (Np.ncols (depth m))
    (λ y x, if Np.bitem nc y x then Np.bitem (depth m) y x else 0%Z).

(** A Clicker built on the label map [lbl], together with a predicted mask
    of the shape of [lbl]; [nc] is its [not_clicked_map]. *)
Definition built_on (lbl : Np.ndarray Z) (ignore_label : Z) (pred : Np.ndarray bool)
    (self : Clicker) (nc : Np.ndarray bool) : Prop :=
  gt_mask self = Some (foreground lbl) ∧
  not_ignore_mask self = Some (not_ignored lbl ignore_label) ∧
  not_clicked_map self = Some nc ∧
  Np.shape nc = Np.shape lbl ∧ Np.wf nc ∧ Np.wf lbl ∧
  Np.wf pred ∧ Np.shape pred = Np.shape lbl.


(** [clicker22] after an [add_click] outside the mask, which raised. *)
Definition clicker22_failed_add : Clicker :=
  Eval vm_compute in run_calls [AddClick (mk_Click true (5, 5)%Z)] clicker22.

(** * Lemmas *)

(** ** Row-major indexing *)

Section flat_index.
Context (w : nat).

Lemma flat_div y x : x < w → Nat.div (y * w + x) w = y.
Proof. intros Hx. symmetry. apply (Nat.div_unique _ w y x); lia. Qed.

Lemma flat_mod y x : x < w → Nat.modulo (y * w + x) w = x.
Proof. intros Hx. symmetry. apply (Nat.mod_unique _ w y x); lia. Qed.

Lemma flat_lt h y x : y < h → x < w → y * w + x < h * w.
Proof. nia. Qed.

Lemma unflat_eq i : 0 < w → Nat.div i w * w + Nat.modulo i w = i.
Proof. intros Hw. pose proof (Nat.div_mod_eq i w). lia. Qed.

Lemma unflat_row_lt h i : i < h * w → Nat.div i w < h.
Proof. intros Hi. apply Nat.Div0.div_lt_upper_bound. lia. Qed.

Lemma unflat_col_lt h i : i < h * w → Nat.modulo i w < w.
Proof. intros Hi. apply Nat.mod_upper_bound. destruct w; lia. Qed.

(** The order of the flat buffer is the lexicographic order of (row, column). *)
Lemma flat_le_lex y x y' x' :
  x < w → x' < w →
  y * w + x ≤ y' * w + x' → y < y' ∨ (y = y' ∧ x ≤ x').
Proof. intros Hx Hx' Hle. destruct (decide (y < y')); [by left|right]. nia. Qed.
End flat_index.

Section arrays.
Context {A : Type}.
Implicit Types (m : Np.ndarray A) (f : nat → nat → A).

Lemma tabulate_wf h w f : Np.wf (Np.tabulate h w f).
Proof. unfold Np.wf. simpl. by rewrite length_fmap, length_seq. Qed.

Lemma tabulate_lookup h w f i :
  i < h * w →
  Np.data (Np.tabulate h w f) !! i = Some (f (Nat.div i w) (Nat.modulo i w)).
Proof.
  intros Hi. simpl. rewrite list_lookup_fmap, lookup_seq_lt by done. done.
Qed.

Lemma item_tabulate h w f y x :
  y < h → x < w → Np.item (Np.tabulate h w f) y x = Some (f y x).
Proof.
  intros Hy Hx. unfold Np.item.
  rewrite decide_True by done.
  rewrite tabulate_lookup by (by apply flat_lt).
  cbn [Np.ncols Np.tabulate]. by rewrite flat_div, flat_mod.
Qed.

Lemma item_Some_lt m y x v :
  Np.item m y x = Some v → y < Np.nrows m ∧ x < Np.ncols m.
Proof. unfold Np.item. case_decide; [done|discriminate]. Qed.

Lemma item_lookup m y x :
  y < Np.nrows m → x < Np.ncols m →
  Np.item m y x = Np.data m !! (y * Np.ncols m + x).
Proof. intros. unfold Np.item. by rewrite decide_True. Qed.

(** Every element of the buffer of a well-formed array is the item of a
    pixel, and the other way round. *)
Lemma lookup_item m i v :
  Np.wf m → Np.data m !! i = Some v →
  Np.item m (Nat.div i (Np.ncols m)) (Nat.modulo i (Np.ncols m)) = Some v.
Proof.
  intros Hwf Hi. pose proof (lookup_lt_Some _ _ _ Hi) as Hlt. rewrite Hwf in Hlt.
  rewrite item_lookup by eauto using unflat_row_lt, unflat_col_lt.
  rewrite unflat_eq; [done|]. destruct (Np.ncols m); lia.
Qed.
End arrays.

(** ** Maximum and first occurrence *)

Lemma foldl_max_ge (vs : list Z) (v : Z) : (v ≤ foldl Z.max v vs)%Z.
Proof.
  revert v. induction vs as [|u vs IH]; intros v; simpl; [lia|].
  specialize (IH (Z.max v u)). lia.
Qed.

Lemma foldl_max_upper (vs : list Z) (v u : Z) :
  u ∈ vs → (u ≤ foldl Z.max v vs)%Z.
Proof.
  revert v. induction vs as [|u' vs IH]; intros v Hin; simpl.
  - by apply elem_of_nil in Hin.
  - apply elem_of_cons in Hin as [->|Hin]; [|by apply IH].
    pose proof (foldl_max_ge vs (Z.max v u')). lia.
Qed.

Lemma foldl_max_elem (vs : list Z) (v : Z) :
  foldl Z.max v vs = v ∨ foldl Z.max v vs ∈ vs.
Proof.
  revert v. induction vs as [|u vs IH]; intros v; simpl; [by left|].
  destruct (IH (Z.max v u)) as [Heq|Hin].
  - rewrite Heq. destruct (Z.max_spec v u) as [[_ ->]|[_ ->]]; [right; left|by left].
  - right. by right.
Qed.

Lemma max_Ok_iff (m : Np.ndarray Z) (v : Z) :
  Np.max m = Ok v → v ∈ Np.data m ∧ ∀ u, u ∈ Np.data m → (u ≤ v)%Z.
Proof.
  unfold Np.max. destruct (Np.data m) as [|v0 vs]; [discriminate|].
  intros [= <-]. split.
  - destruct (foldl_max_elem vs v0) as [->|Hin]; [left|by right].
  - intros u [->|Hin]%elem_of_cons; [apply foldl_max_ge|by apply foldl_max_upper].
Qed.

Lemma max_nonempty (m : Np.ndarray Z) :
  Np.wf m → 0 < Np.nrows m → 0 < Np.ncols m → ∃ v, Np.max m = Ok v.
Proof.
  unfold Np.wf, Np.max. intros Hwf Hh Hw.
  destruct (Np.data m) as [|v0 vs]; [simpl in Hwf; nia|eauto].
Qed.

Lemma max_empty (m : Np.ndarray Z) :
  Np.wf m → Np.nrows m = 0 ∨ Np.ncols m = 0 → Np.max m = Raise ValueError.
Proof.
  unfold Np.wf, Np.max. intros Hwf Hz.
  destruct (Np.data m) as [|v0 vs]; [done|simpl in Hwf; nia].
Qed.

(** The maximum computed by [np.max] is the maximum over the pixels. *)
Lemma max_is_maximum (m : Np.ndarray Z) (v : Z) :
  Np.wf m → Np.max m = Ok v → is_maximum m v.
Proof.
  intros Hwf [Hin Hub]%max_Ok_iff. split.
  - apply list_elem_of_lookup in Hin as [i Hi]. eauto using lookup_item.
  - intros y x u Hu. pose proof (item_Some_lt _ _ _ _ Hu) as [Hy Hx].
    rewrite item_lookup in Hu by done. apply Hub. by eapply list_elem_of_lookup_2.
Qed.

(** Selecting the first position of the maximum succeeds, and yields the
    first pixel in row-major order that attains it. *)
Lemma where_first_max (m : Np.ndarray Z) (v : Z) :
  Np.wf m → Np.max m = Ok v →
  ∃ y x, Np.where_first m v = Ok (y, x) ∧ row_major_first m v y x.
Proof.
  intros Hwf [Hin _]%max_Ok_iff. unfold Np.where_first.
  destruct (list_find_elem_of (λ w, w = v) (Np.data m) v Hin eq_refl) as [[i u] Hfind].
  rewrite Hfind. apply list_find_Some in Hfind as (Hi & -> & Hleast).
  eexists _, _. split; [done|]. split; [by apply lookup_item|].
  intros y' x' Hv'. pose proof (item_Some_lt _ _ _ _ Hv') as [Hy' Hx'].
  rewrite item_lookup in Hv' by done.
  pose proof (lookup_lt_Some _ _ _ Hi) as Hlt. rewrite Hwf in Hlt.
  apply (flat_le_lex (Np.ncols m)); [by eapply unflat_col_lt|done|].
  rewrite unflat_eq by lia.
  destruct (decide (i ≤ y' * Np.ncols m + x')) as [|Hgt]; [done|].
  exfalso. apply (Hleast _ _ Hv'); [lia|done].
Qed.

Lemma row_major_first_lt (m : Np.ndarray Z) v y x :
  row_major_first m v y x → y < Np.nrows m ∧ x < Np.ncols m.
Proof. intros [Hv _]. by eapply item_Some_lt. Qed.

(** ** Elementwise operations and the distance maps *)

Lemma broadcast_dim_refl n : Np.broadcast_dim n n = Some n.
Proof. unfold Np.broadcast_dim. by rewrite decide_True. Qed.

Lemma zip_with_same_shape `{Inhabited A, Inhabited B} {C} (f : A → B → C) a b :
  Np.shape a = Np.shape b →
  Np.zip_with f a b =
    Ok (Np.tabulate (Np.nrows a) (Np.ncols a) (λ y x, f (Np.bitem a y x) (Np.bitem b y x))).
Proof.
  intros Hs. unfold Np.zip_with, Np.broadcast_shape. rewrite <- Hs. simpl.
  by rewrite !broadcast_dim_refl.
Qed.

Lemma zip_with_incompatible `{Inhabited A, Inhabited B} {C} (f : A → B → C) a b :
  Np.broadcast_shape (Np.shape a) (Np.shape b) = None →
  Np.zip_with f a b = Raise ValueError.
Proof. intros Hs. unfold Np.zip_with. by rewrite Hs. Qed.

Lemma bitem_item `{Inhabited A} (m : Np.ndarray A) y x :
  Np.wf m → y < Np.nrows m → x < Np.ncols m →
  Np.item m y x = Some (Np.bitem m y x).
Proof.
  intros Hwf Hy Hx. rewrite item_lookup by done. unfold Np.bitem, Np.item_total.
  assert ((if decide (Np.nrows m = 1) then 0 else y) = y) as -> by (case_decide; lia).
  assert ((if decide (Np.ncols m = 1) then 0 else x) = x) as -> by (case_decide; lia).
  apply list_lookup_lookup_total_lt. rewrite Hwf. by apply flat_lt.
Qed.

Lemma lookup_total_nonneg (l : list Z) i :
  Forall (λ v, 0 ≤ v)%Z l → (0 ≤ l !!! i)%Z.
Proof.
  intros Hl. rewrite list_lookup_total_alt.
  destruct (l !! i) as [v|] eqn:Hi; simpl.
  - by eapply (Forall_lookup_1 _ l).
  - unfold inhabitant; simpl. lia.
Qed.

Lemma tabulate_nonneg h w (f : nat → nat → Z) :
  (∀ y x, 0 ≤ f y x)%Z → nonneg (Np.tabulate h w f).
Proof. intros Hf. unfold nonneg. simpl. apply Forall_fmap, Forall_forall. intros; apply Hf. Qed.

Lemma sq_dist_nonneg p q : (0 ≤ sq_dist p q)%Z.
Proof. unfold sq_dist. nia. Qed.

Lemma nearest_sq_nonneg p qs : (0 ≤ nearest_sq p qs)%Z.
Proof.
  destruct qs as [|q qs]; simpl; [lia|].
  pose proof (sq_dist_nonneg p q) as Hq. revert Hq.
  generalize (sq_dist p q). induction qs as [|q' qs IH]; intros d Hd; simpl; [done|].
  apply IH. pose proof (sq_dist_nonneg p q'). lia.
Qed.

Lemma distance_transform_edt_sq_nonneg m : nonneg (distance_transform_edt_sq m).
Proof.
  apply tabulate_nonneg. intros y x. case_match; [apply nearest_sq_nonneg|lia].
Qed.

Lemma crop1_nonneg m : nonneg m → nonneg (Np.crop1 m).
Proof. intros Hm. apply tabulate_nonneg. intros. by apply lookup_total_nonneg. Qed.

(** Multiplying a distance map by [not_clicked_map], both of one shape. *)
Lemma mul_mask_same_shape dt nc :
  Np.shape dt = Np.shape nc → Np.wf nc → nonneg dt →
  ∃ m, Np.mul_mask dt nc = Ok m ∧ Np.shape m = Np.shape nc ∧ Np.wf m ∧
       nonneg m ∧ masked_by nc m.
Proof.
  intros Hs Hwf Hdt. unfold Np.mul_mask. rewrite zip_with_same_shape by done.
  eexists. split; [done|]. split; [done|]. split; [apply tabulate_wf|]. split.
  - apply tabulate_nonneg. intros y x. case_match; [|lia].
    unfold Np.bitem, Np.item_total. by apply lookup_total_nonneg.
  - intros y x v Hv Hne. pose proof (item_Some_lt _ _ _ _ Hv) as [Hy Hx].
    cbn [Np.nrows Np.ncols Np.tabulate] in Hy, Hx.
    rewrite item_tabulate in Hv by done.
    injection Hs as Hr Hc. rewrite Hr in Hy. rewrite Hc in Hx.
    rewrite bitem_item by done.
    destruct (Np.bitem nc y x); [done|]. by simplify_eq.
Qed.

Ltac solve_shape :=
  unfold Np.shape, Np.crop1, Np.pad1, distance_transform_edt_sq in *;
  cbn [Np.nrows Np.ncols Np.tabulate Np.logical_not Np.map] in *;
  simplify_eq; f_equal; lia.

Lemma masked_distances_same_shape pred self g ni nc :
  gt_mask self = Some g → not_ignore_mask self = Some ni →
  not_clicked_map self = Some nc →
  Np.shape ni = Np.shape g → Np.shape nc = Np.shape g → Np.wf nc →
  Np.shape pred = Np.shape g →
  ∃ fn fp, masked_distances pred self = Ok (fn, fp) ∧
    Np.shape fn = Np.shape g ∧ Np.shape fp = Np.shape g ∧
    Np.wf fn ∧ Np.wf fp ∧ nonneg fn ∧ nonneg fp ∧
    masked_by nc fn ∧ masked_by nc fp.
Proof.
  intros Hg Hni Hnc Hsni Hsnc Hwf Hsp. unfold masked_distances.
  rewrite Hg, Hni, Hnc. cbn [mbind outcome_bind obind attr].
  unfold Np.logical_and.
  rewrite (zip_with_same_shape andb g) by solve_shape.
  cbn [mbind outcome_bind obind].
  rewrite (zip_with_same_shape andb _ ni) by solve_shape.
  cbn [mbind outcome_bind obind].
  rewrite (zip_with_same_shape andb (Np.logical_not g) pred) by solve_shape.
  cbn [mbind outcome_bind obind].
  rewrite (zip_with_same_shape andb _ ni) by solve_shape.
  cbn [mbind outcome_bind obind].
  match goal with
  | |- context [Np.mul_mask ?a nc] =>
      destruct (mul_mask_same_shape a nc) as (fn & -> & Hsfn & Hwfn & Hnfn & Hmfn);
        [solve_shape|done|apply crop1_nonneg, distance_transform_edt_sq_nonneg|]
  end.
  cbn [mbind outcome_bind obind].
  match goal with
  | |- context [Np.mul_mask ?a nc] =>
      destruct (mul_mask_same_shape a nc) as (fp & -> & Hsfp & Hwfp & Hnfp & Hmfp);
        [solve_shape|done|apply crop1_nonneg, distance_transform_edt_sq_nonneg|]
  end.
  cbn [mbind outcome_bind obind].
  eexists _, _. split; [reflexivity|]. rewrite Hsfn, Hsfp, Hsnc. done.
Qed.

(** ** The methods, statement by statement *)

Lemma add_click_eq click self :
  add_click click self =
    match gt_mask self with
    | None => (Ok tt, counted click self)
    | Some _ =>
        match not_clicked_map self with
        | None => (Raise AttributeError, counted click self)
        | Some nc =>
            match Np.setitem nc (coords click) false with
            | Ok m => (Ok tt, set_not_clicked_map m (counted click self))
            | Raise e => (Raise e, counted click self)
            end
        end
    end.
Proof.
  unfold add_click, counted, mbind, M_bind, bind, modify, read.
  destruct (is_positive click); cbn;
    destruct (gt_mask self); cbn; try done;
    destruct (not_clicked_map self); cbn; try done;
    destruct (Np.setitem _ _ _); done.
Qed.

Lemma _remove_last_click_eq self :
  _remove_last_click self =
    match last (clicks_list self) with
    | None => (Raise IndexError, self)
    | Some click =>
        let self1 := uncounted click (removelast (clicks_list self)) self in
        match gt_mask self with
        | None => (Ok tt, self1)
        | Some _ =>
            match not_clicked_map self with
            | None => (Raise AttributeError, self1)
            | Some nc =>
                match Np.setitem nc (coords click) true with
                | Ok m => (Ok tt, set_not_clicked_map m self1)
                | Raise e => (Raise e, self1)
                end
            end
        end
    end.
Proof.
  unfold _remove_last_click, uncounted, pop, mbind, M_bind, bind, modify, read.
  destruct (last (clicks_list self)) as [click|]; [|done].
  destruct (is_positive click); cbn;
    destruct (gt_mask self); cbn; try done;
    destruct (not_clicked_map self); cbn; try done;
    destruct (Np.setitem _ _ _); done.
Qed.

Lemma reset_clicks_eq self : reset_clicks self = (Ok tt, cleared self).
Proof.
  by destruct self as [[g|] ni nc p n l].
Qed.

Lemma make_next_click_eq pred self :
  make_next_click pred self =
    match gt_mask self with
    | None => (Raise AssertionError, self)
    | Some _ =>
        match _get_click pred self with
        | Ok click => add_click click self
        | Raise e => (Raise e, self)
        end
    end.
Proof.
  unfold make_next_click, mbind, M_bind, bind, raise, read. cbv beta iota.
  destruct (gt_mask self); [|done]. by destruct (_get_click pred self).
Qed.

Lemma set_state_eq state self :
  set_state state self = for_each state add_click (cleared self).
Proof. unfold set_state, mbind, M_bind, bind. by rewrite reset_clicks_eq. Qed.


Lemma for_each_preserves {A} (P : Clicker → Prop) (xs : list A) (body : A → M unit) :
  (∀ x, preserves P (body x)) → preserves P (for_each xs body).
Proof.
  intros Hbody. induction xs as [|x xs IH]; intros self HP; simpl; [done|].
  unfold bind. specialize (Hbody x self HP).
  destruct (body x self) as [[[]|e] self']; simpl in *; [by apply IH|done].
Qed.

(** ** Subscripts and stores *)

Section stores.
Context {A : Type}.
Implicit Types (m : Np.ndarray A).

Lemma norm_index_lt n i k : Np.norm_index n i = Some k → k < n.
Proof. unfold Np.norm_index. repeat case_decide; intros; simplify_eq; lia. Qed.

Lemma norm_index_of_nat n k : k < n → Np.norm_index n (Z.of_nat k) = Some k.
Proof.
  intros Hk. unfold Np.norm_index. rewrite decide_True by lia. by rewrite Nat2Z.id.
Qed.

Lemma pixel_lt m c y x : Np.pixel m c = Some (y, x) → y < Np.nrows m ∧ x < Np.ncols m.
Proof.
  unfold Np.pixel.
  destruct (Np.norm_index _ c.1) eqn:Hy; [|done].
  destruct (Np.norm_index _ c.2) eqn:Hx; [|done].
  intros [= <- <-]. eauto using norm_index_lt.
Qed.

Lemma pixel_of_nat m y x :
  y < Np.nrows m → x < Np.ncols m → Np.pixel m (Z.of_nat y, Z.of_nat x) = Some (y, x).
Proof. intros Hy Hx. unfold Np.pixel. simpl. by rewrite !norm_index_of_nat. Qed.

Lemma pixel_shape {B} m (m' : Np.ndarray B) c :
  Np.shape m = Np.shape m' → Np.pixel m c = Np.pixel m' c.
Proof. intros [= Hr Hc]. unfold Np.pixel. by rewrite Hr, Hc. Qed.

Lemma setitem_eq m c v :
  Np.setitem m c v =
    match Np.pixel m c with
    | Some (y, x) => Ok (stored m y x v)
    | None => Raise IndexError
    end.
Proof. done. Qed.

Lemma stored_wf m y x v : Np.wf m → Np.wf (stored m y x v).
Proof. unfold Np.wf. simpl. by rewrite length_insert. Qed.

Lemma item_stored_eq m y x v :
  Np.wf m → y < Np.nrows m → x < Np.ncols m → Np.item (stored m y x v) y x = Some v.
Proof.
  intros Hwf Hy Hx. rewrite item_lookup by done. simpl.
  apply list_lookup_insert_eq. rewrite Hwf. by apply flat_lt.
Qed.

Lemma item_stored_ne m y x v y' x' :
  x < Np.ncols m → (y', x') ≠ (y, x) →
  Np.item (stored m y x v) y' x' = Np.item m y' x'.
Proof.
  intros Hx Hne. unfold Np.item. simpl. case_decide as Hlt; [|done].
  apply list_lookup_insert_ne. intros Heq. apply Hne.
  assert (y = y') as ->.
  { rewrite <- (flat_div (Np.ncols m) y x), <- (flat_div (Np.ncols m) y' x') by lia.
    by rewrite Heq. }
  f_equal. lia.
Qed.
End stores.

(** ** Fields of the intermediate objects *)

Lemma counted_gt_mask c s : gt_mask (counted c s) = gt_mask s.
Proof. unfold counted. by destruct (is_positive c). Qed.
Lemma counted_not_ignore_mask c s : not_ignore_mask (counted c s) = not_ignore_mask s.
Proof. unfold counted. by destruct (is_positive c). Qed.
Lemma counted_not_clicked_map c s : not_clicked_map (counted c s) = not_clicked_map s.
Proof. unfold counted. by destruct (is_positive c). Qed.
Lemma counted_clicks_list c s : clicks_list (counted c s) = clicks_list s ++ [c].
Proof. unfold counted. by destruct (is_positive c). Qed.
Lemma counted_num_pos_clicks c s :
  num_pos_clicks (counted c s) = (num_pos_clicks s + if is_positive c then 1 else 0)%Z.
Proof. unfold counted. destruct (is_positive c); simpl; lia. Qed.
Lemma counted_num_neg_clicks c s :
  num_neg_clicks (counted c s) = (num_neg_clicks s + if is_positive c then 0 else 1)%Z.
Proof. unfold counted. destruct (is_positive c); simpl; lia. Qed.

Lemma uncounted_gt_mask c l s : gt_mask (uncounted c l s) = gt_mask s.
Proof. unfold uncounted. by destruct (is_positive c). Qed.
Lemma uncounted_not_ignore_mask c l s : not_ignore_mask (uncounted c l s) = not_ignore_mask s.
Proof. unfold uncounted. by destruct (is_positive c). Qed.
Lemma uncounted_not_clicked_map c l s : not_clicked_map (uncounted c l s) = not_clicked_map s.
Proof. unfold uncounted. by destruct (is_positive c). Qed.
Lemma uncounted_clicks_list c l s : clicks_list (uncounted c l s) = l.
Proof. unfold uncounted. by destruct (is_positive c). Qed.
Lemma uncounted_num_pos_clicks c l s :
  num_pos_clicks (uncounted c l s) = (num_pos_clicks s - if is_positive c then 1 else 0)%Z.
Proof. unfold uncounted. destruct (is_positive c); simpl; lia. Qed.
Lemma uncounted_num_neg_clicks c l s :
  num_neg_clicks (uncounted c l s) = (num_neg_clicks s - if is_positive c then 0 else 1)%Z.
Proof. unfold uncounted. destruct (is_positive c); simpl; lia. Qed.

Create Rewrite HintDb fields.
Hint Rewrite counted_gt_mask counted_not_ignore_mask counted_not_clicked_map
  counted_clicks_list counted_num_pos_clicks counted_num_neg_clicks
  uncounted_gt_mask uncounted_not_ignore_mask uncounted_not_clicked_map
  uncounted_clicks_list uncounted_num_pos_clicks uncounted_num_neg_clicks : fields.

Ltac fields :=
  cbn [gt_mask not_ignore_mask not_clicked_map num_pos_clicks num_neg_clicks
       clicks_list set_not_clicked_map cleared snd];
  autorewrite with fields.

Tactic Notation "fields" "in" hyp(H) :=
  cbn [gt_mask not_ignore_mask not_clicked_map num_pos_clicks num_neg_clicks
       clicks_list set_not_clicked_map cleared snd] in H;
  autorewrite with fields in H.

(** ** Counting clicks *)

Lemma count_clicks_nil b : count_clicks b [] = 0%Z.
Proof. done. Qed.

Lemma count_clicks_snoc b l c :
  count_clicks b (l ++ [c]) =
    (count_clicks b l + if decide (is_positive c = b) then 1 else 0)%Z.
Proof.
  unfold count_clicks. rewrite filter_app, length_app, filter_cons, filter_nil.
  case_decide; simpl; lia.
Qed.

Lemma count_clicks_total l :
  (count_clicks true l + count_clicks false l = Z.of_nat (length l))%Z.
Proof.
  induction l as [|c l IH] using rev_ind; [done|].
  rewrite !count_clicks_snoc, length_app. simpl.
  destruct (is_positive c); repeat case_decide; try done; lia.
Qed.

(** ** What holds in every reachable state *)

Lemma click_pixels_snoc nc l c :
  click_pixels nc (l ++ [c]) = click_pixels nc l ++ [Np.pixel nc (coords c)].
Proof. unfold click_pixels. by rewrite fmap_app. Qed.

Lemma click_pixels_shape nc nc' l :
  Np.shape nc = Np.shape nc' → click_pixels nc l = click_pixels nc' l.
Proof.
  intros Hs. unfold click_pixels. apply list_fmap_ext. intros _ c _.
  by apply pixel_shape.
Qed.

Lemma counted_counts c s :
  num_pos_clicks s = count_clicks true (clicks_list s) →
  num_neg_clicks s = count_clicks false (clicks_list s) →
  num_pos_clicks (counted c s) = count_clicks true (clicks_list (counted c s)) ∧
  num_neg_clicks (counted c s) = count_clicks false (clicks_list (counted c s)).
Proof.
  intros Hp Hn. fields. rewrite !count_clicks_snoc, Hp, Hn.
  destruct (is_positive c); repeat case_decide; done.
Qed.

Lemma uncounted_counts c l s :
  clicks_list s = l ++ [c] →
  num_pos_clicks s = count_clicks true (clicks_list s) →
  num_neg_clicks s = count_clicks false (clicks_list s) →
  num_pos_clicks (uncounted c l s) = count_clicks true l ∧
  num_neg_clicks (uncounted c l s) = count_clicks false l.
Proof.
  intros Hl Hp Hn. fields. rewrite Hp, Hn, Hl, !count_clicks_snoc.
  destruct (is_positive c); repeat case_decide; try done; lia.
Qed.

Lemma add_click_consistent click : preserves consistent (add_click click).
Proof.
  intros self (Hshape & Hnone & Hpos & Hneg & Hmark). rewrite add_click_eq.
  destruct (counted_counts click self Hpos Hneg) as [Hpos' Hneg'].
  assert (∀ nc y x, not_clicked_map self = Some nc → Np.item nc y x = Some false →
            Some (y, x) ∈ click_pixels nc (clicks_list (counted click self))) as Hmark'.
  { intros nc y x Hnc Hf. fields. rewrite click_pixels_snoc, elem_of_app. left. eauto. }
  assert (consistent (counted click self)) as Hcounted.
  { split_and!; try done.
    - intros g Hg. fields in Hg. fields. by apply Hshape.
    - fields. done.
    - intros nc y x Hnc. fields in Hnc. by apply Hmark'. }
  destruct (gt_mask self) as [g|] eqn:Hg; [|done].
  destruct (Hshape g Hg) as (ni & nc & Hni & Hnc & Hsni & Hsnc & Hwf).
  rewrite Hnc, setitem_eq.
  destruct (Np.pixel nc (coords click)) as [[y x]|] eqn:Hpx; [|done].
  pose proof (pixel_lt _ _ _ _ Hpx) as [Hy Hx].
  split_and!; cbn [snd].
  - intros g' Hg'. fields in Hg'. fields. rewrite Hg in Hg'. injection Hg' as <-.
    exists ni, (stored nc y x false). split_and!; try done. by apply stored_wf.
  - fields. by rewrite Hg.
  - fields. by rewrite <- counted_num_pos_clicks.
  - fields. by rewrite <- counted_num_neg_clicks.
  - intros nc' y' x' Hnc' Hf. fields in Hnc'. fields. injection Hnc' as <-.
    rewrite (click_pixels_shape _ nc) by done.
    rewrite click_pixels_snoc, elem_of_app.
    destruct (decide ((y', x') = (y, x))) as [[= -> ->]|Hne].
    + right. rewrite Hpx. by left.
    + left. rewrite item_stored_ne in Hf by done. eauto.
Qed.

Lemma _remove_last_click_consistent : preserves consistent _remove_last_click.
Proof.
  intros self (Hshape & Hnone & Hpos & Hneg & Hmark). rewrite _remove_last_click_eq.
  destruct (last (clicks_list self)) as [click|] eqn:Hlast; [|done].
  apply last_Some in Hlast as [rest Hl]. rewrite Hl, removelast_last. cbn zeta.
  destruct (uncounted_counts click rest self Hl Hpos Hneg) as [Hpos' Hneg'].
  destruct (gt_mask self) as [g|] eqn:Hg.
  - destruct (Hshape g Hg) as (ni & nc & Hni & Hnc & Hsni & Hsnc & Hwf).
    assert (∀ y x, Np.pixel nc (coords click) ≠ Some (y, x) →
              Np.item nc y x = Some false → Some (y, x) ∈ click_pixels nc rest) as Hrest.
    { intros y x Hne Hf. specialize (Hmark nc y x Hnc Hf).
      rewrite Hl, click_pixels_snoc, elem_of_app, list_elem_of_singleton in Hmark.
      destruct Hmark as [?|?]; [done|]. by destruct Hne. }
    rewrite Hnc, setitem_eq.
    destruct (Np.pixel nc (coords click)) as [[y x]|] eqn:Hpx; cbn [snd].
    + pose proof (pixel_lt _ _ _ _ Hpx) as [Hy Hx].
      split_and!.
      * intros g' Hg'. fields in Hg'. fields. rewrite Hg in Hg'. injection Hg' as <-.
        exists ni, (stored nc y x true). split_and!; try done. by apply stored_wf.
      * fields. by rewrite Hg.
      * fields. by rewrite <- (uncounted_num_pos_clicks click rest).
      * fields. by rewrite <- (uncounted_num_neg_clicks click rest).
      * intros nc' y' x' Hnc' Hf. fields in Hnc'. fields. injection Hnc' as <-.
        rewrite (click_pixels_shape _ nc) by done.
        destruct (decide ((y', x') = (y, x))) as [[= -> ->]|Hne].
        -- rewrite item_stored_eq in Hf by done. discriminate.
        -- rewrite item_stored_ne in Hf by done. apply Hrest; [|done]. congruence.
    + split_and!.
      * intros g' Hg'. fields in Hg'. fields. by apply Hshape.
      * fields. by rewrite Hg.
      * fields. by rewrite <- (uncounted_num_pos_clicks click rest).
      * fields. by rewrite <- (uncounted_num_neg_clicks click rest).
      * intros nc' y' x' Hnc' Hf. fields in Hnc'. fields.
        rewrite Hnc in Hnc'. injection Hnc' as <-. by apply Hrest.
  - cbn [snd]. split_and!.
    + intros g' Hg'. fields in Hg'. congruence.
    + fields. auto.
    + fields. by rewrite <- (uncounted_num_pos_clicks click rest).
    + fields. by rewrite <- (uncounted_num_neg_clicks click rest).
    + intros nc y x Hnc. fields in Hnc. rewrite Hnone in Hnc; done.
Qed.

Lemma ones_like_wf {A} (m : Np.ndarray A) : Np.wf (Np.ones_like m).
Proof. unfold Np.wf. simpl. by rewrite length_replicate. Qed.

Lemma item_ones_like {A} (m : Np.ndarray A) y x v :
  Np.item (Np.ones_like m) y x = Some v → v = true.
Proof.
  unfold Np.item. case_decide; [|done]. simpl.
  by intros [-> _]%lookup_replicate.
Qed.

(** [reset_clicks] establishes the invariant as soon as the ground-truth
    attributes are in place. *)
Lemma cleared_consistent self :
  (∀ g, gt_mask self = Some g →
     ∃ ni, not_ignore_mask self = Some ni ∧ Np.shape ni = Np.shape g) →
  (gt_mask self = None → not_clicked_map self = None) →
  consistent (cleared self).
Proof.
  intros Hni Hnone. split_and!.
  - intros g Hg. fields in Hg. fields. destruct (Hni g Hg) as (ni & Hni' & Hs).
    exists ni, (Np.ones_like g). rewrite Hg. split_and!; try done. apply ones_like_wf.
  - fields. intros Hg. rewrite Hg. auto.
  - done.
  - done.
  - intros nc y x Hnc Hf. fields in Hnc. destruct (gt_mask self) as [g|] eqn:Hg.
    + injection Hnc as <-. by apply item_ones_like in Hf.
    + rewrite Hnone in Hnc; done.
Qed.

Lemma reset_clicks_consistent : preserves consistent reset_clicks.
Proof.
  intros self (Hshape & Hnone & _). rewrite reset_clicks_eq. apply cleared_consistent; [|done].
  intros g Hg. destruct (Hshape g Hg) as (ni & nc & ? & _ & ? & _). eauto.
Qed.

Lemma set_state_consistent state : preserves consistent (set_state state).
Proof.
  intros self Hc. rewrite set_state_eq.
  apply for_each_preserves; [apply add_click_consistent|].
  pose proof (reset_clicks_consistent self Hc) as Hr. by rewrite reset_clicks_eq in Hr.
Qed.

Lemma make_next_click_consistent pred : preserves consistent (make_next_click pred).
Proof.
  intros self Hc. rewrite make_next_click_eq.
  destruct (gt_mask self); [|done].
  destruct (_get_click pred self); [by apply add_click_consistent|done].
Qed.

Lemma run_call_consistent c : preserves consistent (run_call c).
Proof.
  destruct c; simpl;
    eauto using make_next_click_consistent, add_click_consistent,
      _remove_last_click_consistent, reset_clicks_consistent, set_state_consistent;
    by intros self Hc.
Qed.

Lemma new_consistent gt init_clicks ignore_label self :
  new gt init_clicks ignore_label = Ok self → consistent self.
Proof.
  unfold new. destruct (__init__ _ _ _ blank) as [[[]|e] self'] eqn:Hinit; [|done].
  intros [= <-]. change self' with (Ok (), self').2. rewrite <- Hinit. clear Hinit.
  unfold __init__, mbind, M_bind, bind.
  destruct gt as [lbl|]; cbn [modify]; rewrite reset_clicks_eq.
  - match goal with |- context [cleared ?s] => assert (consistent (cleared s)) as Hc end.
    { apply cleared_consistent; [|done]. intros g [= <-]. eauto. }
    destruct init_clicks as [clicks|]; [|done].
    by apply for_each_preserves; [apply add_click_consistent|].
  - match goal with |- context [cleared ?s] => assert (consistent (cleared s)) as Hc end.
    { apply cleared_consistent; [|done]. intros g [=]. }
    destruct init_clicks as [clicks|]; [|done].
    by apply for_each_preserves; [apply add_click_consistent|].
Qed.

Lemma reachable_consistent self : reachable self → consistent self.
Proof.
  induction 1 as [gt init ign self Hnew|c self r self' _ IH Hrun].
  - by eapply new_consistent.
  - change self' with (r, self').2. rewrite <- Hrun. by apply run_call_consistent.
Qed.

(** ** The selection of [_get_click] *)

Lemma is_maximum_unique m v v' : is_maximum m v → is_maximum m v' → v = v'.
Proof.
  intros [(y & x & Hv) Hub] [(y' & x' & Hv') Hub'].
  apply Hub in Hv'. apply Hub' in Hv. lia.
Qed.

Lemma is_maximum_max m v : Np.wf m → is_maximum m v → Np.max m = Ok v.
Proof.
  intros Hwf Hm. pose proof Hm as [(y & x & Hv) _].
  apply item_Some_lt in Hv as [Hy Hx].
  destruct (max_nonempty m) as [v' Hv']; [done|lia..|].
  rewrite Hv'. f_equal. eauto using is_maximum_unique, max_is_maximum.
Qed.

(** On a non-empty ground truth the selection returns, and what it returns
    is the first position of the larger maximum. *)
Lemma _get_click_selects pred self g :
  masks_shaped self → gt_mask self = Some g → Np.shape pred = Np.shape g →
  0 < Np.nrows g → 0 < Np.ncols g →
  ∃ nc fn fp fn_max fp_max y x,
    not_clicked_map self = Some nc ∧ Np.shape nc = Np.shape g ∧ Np.wf nc ∧
    masked_distances pred self = Ok (fn, fp) ∧
    Np.wf fn ∧ Np.wf fp ∧ nonneg fn ∧ nonneg fp ∧ masked_by nc fn ∧ masked_by nc fp ∧
    Np.max fn = Ok fn_max ∧ Np.max fp = Ok fp_max ∧
    _get_click pred self =
      Ok (mk_Click (fn_max >? fp_max)%Z (Z.of_nat y, Z.of_nat x)) ∧
    (if (fn_max >? fp_max)%Z then row_major_first fn fn_max y x
     else row_major_first fp fp_max y x) ∧
    y < Np.nrows g ∧ x < Np.ncols g.
Proof.
  intros Hshape Hg Hsp Hh Hw.
  destruct (Hshape g Hg) as (ni & nc & Hni & Hnc & Hsni & Hsnc & Hwf).
  destruct (masked_distances_same_shape pred self g ni nc)
    as (fn & fp & Hmd & Hsfn & Hsfp & Hwfn & Hwfp & Hnfn & Hnfp & Hmfn & Hmfp); try done.
  injection Hsfn as Hfnr Hfnc. injection Hsfp as Hfpr Hfpc.
  destruct (max_nonempty fn) as [fn_max Hfn_max]; [done|lia..|].
  destruct (max_nonempty fp) as [fp_max Hfp_max]; [done|lia..|].
  destruct (where_first_max fn fn_max) as (y1 & x1 & Hw1 & Hf1); [done..|].
  destruct (where_first_max fp fp_max) as (y2 & x2 & Hw2 & Hf2); [done..|].
  pose proof (row_major_first_lt _ _ _ _ Hf1) as [Hy1 Hx1].
  pose proof (row_major_first_lt _ _ _ _ Hf2) as [Hy2 Hx2].
  exists nc, fn, fp, fn_max, fp_max.
  exists (if (fn_max >? fp_max)%Z then y1 else y2),
         (if (fn_max >? fp_max)%Z then x1 else x2).
  split_and!; try done.
  - unfold _get_click. rewrite Hmd. cbn [mbind outcome_bind obind].
    rewrite Hfn_max, Hfp_max. cbn [mbind outcome_bind obind].
    destruct (fn_max >? fp_max)%Z.
    + by rewrite Hw1.
    + by rewrite Hw2.
  - by destruct (fn_max >? fp_max)%Z.
  - destruct (fn_max >? fp_max)%Z; lia.
  - destruct (fn_max >? fp_max)%Z; lia.
Qed.

(** On an empty ground truth there is no maximum to take. *)
Lemma _get_click_empty pred self g :
  masks_shaped self → gt_mask self = Some g → Np.shape pred = Np.shape g →
  Np.nrows g = 0 ∨ Np.ncols g = 0 →
  _get_click pred self = Raise ValueError.
Proof.
  intros Hshape Hg Hsp Hz.
  destruct (Hshape g Hg) as (ni & nc & Hni & Hnc & Hsni & Hsnc & Hwf).
  destruct (masked_distances_same_shape pred self g ni nc)
    as (fn & fp & Hmd & Hsfn & Hsfp & Hwfn & Hwfp & _); try done.
  injection Hsfn as Hfnr Hfnc.
  unfold _get_click. rewrite Hmd. cbn [mbind outcome_bind obind].
  rewrite (max_empty fn) by (done || lia). done.
Qed.

(** Adding a click whose pixel lies in the map marks the pixel. *)
Lemma add_click_in_bounds click self g nc y x :
  gt_mask self = Some g → not_clicked_map self = Some nc →
  Np.pixel nc (coords click) = Some (y, x) →
  add_click click self =
    (Ok tt, set_not_clicked_map (stored nc y x false) (counted click self)).
Proof. intros Hg Hnc Hpx. by rewrite add_click_eq, Hg, Hnc, setitem_eq, Hpx. Qed.

Lemma make_next_click_selects pred self g :
  masks_shaped self → gt_mask self = Some g → Np.shape pred = Np.shape g →
  0 < Np.nrows g → 0 < Np.ncols g →
  ∃ nc fn fp fn_max fp_max y x,
    not_clicked_map self = Some nc ∧ Np.shape nc = Np.shape g ∧ Np.wf nc ∧
    masked_distances pred self = Ok (fn, fp) ∧
    Np.wf fn ∧ Np.wf fp ∧ nonneg fn ∧ nonneg fp ∧ masked_by nc fn ∧ masked_by nc fp ∧
    Np.max fn = Ok fn_max ∧ Np.max fp = Ok fp_max ∧
    (if (fn_max >? fp_max)%Z then row_major_first fn fn_max y x
     else row_major_first fp fp_max y x) ∧
    y < Np.nrows g ∧ x < Np.ncols g ∧
    let click := mk_Click (fn_max >? fp_max)%Z (Z.of_nat y, Z.of_nat x) in
    _get_click pred self = Ok click ∧
    make_next_click pred self =
      (Ok tt, set_not_clicked_map (stored nc y x false) (counted click self)).
Proof.
  intros Hshape Hg Hsp Hh Hw.
  destruct (_get_click_selects pred self g)
    as (nc & fn & fp & fn_max & fp_max & y & x & Hnc & Hsnc & Hwf & Hmd & Hwfn & Hwfp &
        Hnfn & Hnfp & Hmfn & Hmfp & Hfn_max & Hfp_max & Hget & Hfirst & Hy & Hx); try done.
  exists nc, fn, fp, fn_max, fp_max, y, x. split_and!; try done.
  rewrite make_next_click_eq, Hg, Hget. split; [done|].
  injection Hsnc as Hr Hc.
  apply (add_click_in_bounds _ _ g); [done..|]. apply pixel_of_nat; lia.
Qed.

(** ** The sample objects *)

(** The scenario of the specification: a filled 5 by 5 square in a 10 by 10
    field and an all-false prediction.  The first click is positive and sits
    at the centre of the square, three pixels from the background. *)
Example square_first_click :
  new (Some square10) None (-1) = Ok clicker_square ∧
  _get_click none10 clicker_square = Ok (mk_Click true (4, 4)%Z) ∧
  (∃ fn fp, masked_distances none10 clicker_square = Ok (fn, fp) ∧
            Np.max fn = Ok 9%Z ∧ Np.max fp = Ok 0%Z).
Proof.
  split_and!; [reflexivity|vm_compute; reflexivity|].
  destruct (masked_distances none10 clicker_square) as [[fn fp]|e] eqn:Hmd;
    [|vm_compute in Hmd; discriminate].
  exists fn, fp. split; [done|]. vm_compute in Hmd. injection Hmd as <- <-.
  split; vm_compute; reflexivity.
Qed.

Lemma clicker22_reachable : reachable clicker22.
Proof. by apply (reachable_new (Some ones22) None (-1)). Qed.

(** ** A Clicker without ground truth *)

Lemma add_click_no_gt click : preserves no_gt (add_click click).
Proof.
  intros self Hg. unfold no_gt in *. rewrite add_click_eq, Hg. by fields.
Qed.

Lemma run_call_no_gt c : preserves no_gt (run_call c).
Proof.
  intros self Hg. pose proof Hg as Hg'. unfold no_gt in Hg'.
  destruct c; simpl; try done.
  - by rewrite make_next_click_eq, Hg'.
  - by apply add_click_no_gt.
  - rewrite _remove_last_click_eq, Hg'. destruct (last _); [|done].
    unfold no_gt. by fields.
  - by rewrite reset_clicks_eq.
  - rewrite set_state_eq. apply for_each_preserves; [apply add_click_no_gt|done].
Qed.

Lemma run_calls_no_gt calls : ∀ self, no_gt self → no_gt (run_calls calls self).
Proof.
  induction calls as [|c calls IH]; intros self Hg; [done|].
  simpl. apply IH. by apply run_call_no_gt.
Qed.

Lemma new_no_gt init_clicks ignore_label self :
  new None init_clicks ignore_label = Ok self → no_gt self.
Proof.
  unfold new. destruct (__init__ _ _ _ blank) as [[[]|e] self'] eqn:Hinit; [|done].
  intros [= <-]. change self' with (Ok (), self').2. rewrite <- Hinit. clear Hinit.
  unfold __init__, mbind, M_bind, bind. cbn [modify]. rewrite reset_clicks_eq.
  destruct init_clicks as [clicks|]; [|done].
  by apply for_each_preserves; [apply add_click_no_gt|].
Qed.

(** ** Maxima that are both zero *)

Lemma bind_Ok {A B} (m : outcome A) (f : A → outcome B) b :
  m ≫= f = Ok b → ∃ a, m = Ok a ∧ f a = Ok b.
Proof. destruct m as [a|e]; [eauto|discriminate]. Qed.

Lemma zip_with_Ok `{Inhabited A, Inhabited B} {C} (f : A → B → C) a b m :
  Np.zip_with f a b = Ok m →
  ∃ h w, Np.broadcast_shape (Np.shape a) (Np.shape b) = Some (h, w) ∧
         m = Np.tabulate h w (λ y x, f (Np.bitem a y x) (Np.bitem b y x)).
Proof.
  unfold Np.zip_with. destruct (Np.broadcast_shape _ _) as [[h w]|]; [|done].
  intros [= <-]. eauto.
Qed.

Lemma broadcast_dim_pos n m k : Np.broadcast_dim n m = Some k → 0 < k → 0 < m.
Proof. unfold Np.broadcast_dim. repeat case_decide; intros; simplify_eq; lia. Qed.

Lemma mul_mask_Ok dt nc m :
  Np.mul_mask dt nc = Ok m → nonneg dt → Np.wf m ∧ nonneg m.
Proof.
  intros (h & w & _ & ->)%zip_with_Ok Hdt. split; [apply tabulate_wf|].
  apply tabulate_nonneg. intros y x. case_match; [|lia].
  unfold Np.bitem, Np.item_total. by apply lookup_total_nonneg.
Qed.

(** Whatever the shapes, the maps that [masked_distances] returns are
    well-formed arrays of non-negative numbers. *)
Lemma masked_distances_Ok pred self fn fp :
  masked_distances pred self = Ok (fn, fp) →
  Np.wf fn ∧ Np.wf fp ∧ nonneg fn ∧ nonneg fp.
Proof.
  unfold masked_distances. intros Hmd.
  repeat (apply bind_Ok in Hmd as (? & ? & Hmd)).
  injection Hmd as <- <-.
  repeat match goal with
  | H : Np.mul_mask _ _ = Ok _ |- _ =>
      apply mul_mask_Ok in H as [? ?];
        [|apply crop1_nonneg, distance_transform_edt_sq_nonneg]
  end.
  done.
Qed.

(** In a map of non-negative numbers whose maximum is 0, the first position
    of the maximum is the origin. *)
Lemma where_first_zero m :
  nonneg m → Np.max m = Ok 0%Z → Np.where_first m 0%Z = Ok (0, 0).
Proof.
  intros Hnn Hmax. pose proof Hmax as [_ Hub]%max_Ok_iff.
  unfold Np.where_first, Np.max, nonneg in *.
  destruct (Np.data m) as [|v vs]; [discriminate|].
  assert (v = 0%Z) as ->.
  { apply Forall_cons in Hnn as [Hv _]. specialize (Hub v). rewrite elem_of_cons in Hub.
    specialize (Hub (or_introl eq_refl)). lia. }
  cbn. rewrite decide_True by done. by rewrite Nat.Div0.div_0_l, Nat.Div0.mod_0_l.
Qed.

(** A pixel in a map that [masked_distances] returns is a pixel of
    [not_clicked_map], whatever was broadcast. *)
Lemma masked_distances_map_nonempty pred self nc fn fp y x v :
  masked_distances pred self = Ok (fn, fp) → not_clicked_map self = Some nc →
  Np.item fp y x = Some v → 0 < Np.nrows nc ∧ 0 < Np.ncols nc.
Proof.
  unfold masked_distances. intros Hmd Hnc Hv. rewrite Hnc in Hmd.
  repeat (apply bind_Ok in Hmd as (? & ? & Hmd)).
  injection Hmd as <- <-. cbn [attr] in *. simplify_eq.
  match goal with
  | Hv : Np.item ?m _ _ = _, H : Np.mul_mask _ _ = Ok ?m |- _ =>
      apply zip_with_Ok in H as (h & w & Hbs & ->)
  end.
  apply item_Some_lt in Hv as [Hy Hx]. cbn [Np.nrows Np.ncols Np.tabulate] in Hy, Hx.
  unfold Np.broadcast_shape in Hbs.
  destruct (Np.broadcast_dim _ (Np.shape _).1) as [h'|] eqn:Hh in Hbs; [|done].
  destruct (Np.broadcast_dim _ (Np.shape _).2) as [w'|] eqn:Hw in Hbs; [|done].
  injection Hbs as -> ->.
  split; [apply (broadcast_dim_pos _ _ _ Hh)|apply (broadcast_dim_pos _ _ _ Hw)]; lia.
Qed.

(** With both maxima 0 the selection is the negative click at the origin,
    whether or not the origin has been clicked before. *)
Lemma _get_click_zero_maxima pred self fn fp :
  masked_distances pred self = Ok (fn, fp) →
  is_maximum fn 0%Z → is_maximum fp 0%Z →
  _get_click pred self = Ok (mk_Click false (0, 0)%Z).
Proof.
  intros Hmd Hfn Hfp.
  destruct (masked_distances_Ok _ _ _ _ Hmd) as (Hwfn & Hwfp & Hnfn & Hnfp).
  apply is_maximum_max in Hfn, Hfp; [|done..].
  unfold _get_click. rewrite Hmd. cbn [mbind outcome_bind obind].
  rewrite Hfn, Hfp. cbn [mbind outcome_bind obind Z.gtb Z.compare].
  by rewrite where_first_zero.
Qed.

(** ** The selected pixel is fresh unless both maxima are zero *)

(** Unless both maxima are 0, the pixel [make_next_click] selects is one
    still marked as not yet clicked: this is what multiplying the distance
    maps by [not_clicked_map] is for. *)
Lemma make_next_click_fresh_unless_zero pred self g :
  masks_shaped self → gt_mask self = Some g → Np.shape pred = Np.shape g →
  0 < Np.nrows g → 0 < Np.ncols g →
  ∃ nc fn fp fn_max fp_max click y x,
    not_clicked_map self = Some nc ∧
    masked_distances pred self = Ok (fn, fp) ∧
    Np.max fn = Ok fn_max ∧ Np.max fp = Ok fp_max ∧
    _get_click pred self = Ok click ∧
    coords click = (Z.of_nat y, Z.of_nat x) ∧
    ((fn_max, fp_max) ≠ (0, 0)%Z → Np.item nc y x = Some true).
Proof.
  intros Hshape Hg Hsp Hh Hw.
  destruct (make_next_click_selects pred self g)
    as (nc & fn & fp & fn_max & fp_max & y & x & Hnc & Hsnc & Hwf & Hmd & Hwfn & Hwfp &
        Hnfn & Hnfp & Hmfn & Hmfp & Hfn_max & Hfp_max & Hfirst & Hy & Hx & Hget & _);
    [done..|].
  eexists nc, fn, fp, fn_max, fp_max, _, y, x.
  split_and!; [done|done|done|done|exact Hget|done|].
  intros Hnz.
  assert (0 ≤ fn_max)%Z as Hfn0.
  { apply max_Ok_iff in Hfn_max as [Hin _]. by eapply (proj1 (Forall_forall _ _) Hnfn). }
  assert (0 ≤ fp_max)%Z as Hfp0.
  { apply max_Ok_iff in Hfp_max as [Hin _]. by eapply (proj1 (Forall_forall _ _) Hnfp). }
  destruct (fn_max >? fp_max)%Z eqn:Hgt.
  - apply Z.gtb_gt in Hgt. destruct Hfirst as [Hv _]. apply (Hmfn y x fn_max); [done|lia].
  - rewrite Z.gtb_ltb in Hgt. apply Z.ltb_ge in Hgt.
    destruct Hfirst as [Hv _]. apply (Hmfp y x fp_max); [done|].
    intros ->. apply Hnz. f_equal. lia.
Qed.

(** ** Undoing a store *)

Lemma array_eta {A} (m : Np.ndarray A) :
  Np.mk_ndarray (Np.nrows m) (Np.ncols m) (Np.data m) = m.
Proof. by destruct m. Qed.

Lemma stored_stored_id {A} (m : Np.ndarray A) y x v w :
  Np.item m y x = Some w → stored (stored m y x v) y x w = m.
Proof.
  intros Hw. pose proof (item_Some_lt _ _ _ _ Hw) as [Hy Hx].
  rewrite item_lookup in Hw by done.
  unfold stored. simpl. rewrite list_insert_insert_eq, list_insert_id by done.
  apply array_eta.
Qed.

Lemma uncounted_counted click self :
  uncounted click (clicks_list self) (counted click self) = self.
Proof.
  destruct self as [g ni nc p n l]. unfold uncounted, counted.
  destruct (is_positive click);
    unfold set_clicks_list, set_num_pos_clicks, set_num_neg_clicks; simpl;
    f_equal; lia.
Qed.

Lemma set_map_uncounted_counted click self nc m :
  not_clicked_map self = Some nc →
  set_not_clicked_map nc
    (uncounted click (clicks_list self) (set_not_clicked_map m (counted click self))) = self.
Proof.
  destruct self as [g ni nc' p n l]. simpl. intros [= ->]. unfold uncounted, counted.
  destruct (is_positive click);
    unfold set_not_clicked_map, set_clicks_list, set_num_pos_clicks, set_num_neg_clicks;
    simpl; f_equal; lia.
Qed.

(** ** Marks of the clicks in the list *)

Lemma elem_of_click_pixels nc l p :
  p ∈ click_pixels nc l ↔ ∃ click, click ∈ l ∧ Np.pixel nc (coords click) = p.
Proof.
  unfold click_pixels. rewrite list_elem_of_fmap. split.
  - intros (click & -> & Hin). eauto.
  - intros (click & Hin & <-). eauto.
Qed.

(** In a consistent state whose clicks are marked, the map is false exactly
    at the pixels of the clicks. *)
Lemma marks_exact self nc y x :
  consistent self → clicks_marked self → not_clicked_map self = Some nc →
  Np.item nc y x = Some false ↔ Some (y, x) ∈ click_pixels nc (clicks_list self).
Proof.
  intros (_ & _ & _ & _ & Hmark) Hcover Hnc. split; [by apply Hmark|].
  intros (click & Hin & Hpx)%elem_of_click_pixels.
  destruct (Hcover nc click Hnc Hin) as (y' & x' & Hpx' & Hf). congruence.
Qed.

Lemma array_ext {A} (a b : Np.ndarray A) :
  Np.wf a → Np.wf b → Np.shape a = Np.shape b →
  (∀ y x, y < Np.nrows a → x < Np.ncols a → Np.item a y x = Np.item b y x) →
  a = b.
Proof.
  destruct a as [h w da], b as [h' w' db]. unfold Np.wf, Np.shape. simpl.
  intros Hwa Hwb [= <- <-] Hitem. f_equal. apply list_eq. intros i.
  destruct (decide (i < h * w)) as [Hi|Hi].
  - specialize (Hitem (Nat.div i w) (Nat.modulo i w)
                  (unflat_row_lt w h i Hi) (unflat_col_lt w h i Hi)).
    rewrite !item_lookup in Hitem by (simpl; eauto using unflat_row_lt, unflat_col_lt).
    simpl in Hitem. rewrite unflat_eq in Hitem; [done|]. destruct w; lia.
  - rewrite !lookup_ge_None_2 by lia. done.
Qed.

Lemma item_wf_is_Some {A} (m : Np.ndarray A) y x :
  Np.wf m → y < Np.nrows m → x < Np.ncols m → is_Some (Np.item m y x).
Proof.
  intros Hwf Hy Hx. rewrite item_lookup by done. apply lookup_lt_is_Some.
  rewrite Hwf. by apply flat_lt.
Qed.

(** Two boolean maps of one shape that are false at the same pixels are equal. *)
Lemma mask_ext (a b : Np.ndarray bool) :
  Np.wf a → Np.wf b → Np.shape a = Np.shape b →
  (∀ y x, Np.item a y x = Some false ↔ Np.item b y x = Some false) →
  a = b.
Proof.
  intros Hwa Hwb Hs Hiff. apply array_ext; [done..|]. intros y x Hy Hx.
  destruct (item_wf_is_Some a y x Hwa Hy Hx) as [va Ha].
  injection Hs as Hr Hc.
  destruct (item_wf_is_Some b y x Hwb) as [vb Hb]; [lia..|].
  specialize (Hiff y x). rewrite Ha, Hb in *.
  destruct va, vb; try done.
  - destruct (proj2 Hiff eq_refl). done.
  - destruct (proj1 Hiff eq_refl). done.
Qed.

(** A successful [add_click] keeps the clicks marked. *)
Lemma add_click_marked click self self' :
  consistent self → clicks_marked self →
  add_click click self = (Ok tt, self') → clicks_marked self'.
Proof.
  intros (Hshape & Hnone & _) Hcover. rewrite add_click_eq.
  destruct (gt_mask self) as [g|] eqn:Hg.
  - destruct (Hshape g Hg) as (ni & nc & Hni & Hnc & Hsni & Hsnc & Hwf).
    rewrite Hnc, setitem_eq.
    destruct (Np.pixel nc (coords click)) as [[y x]|] eqn:Hpx; [|done].
    pose proof (pixel_lt _ _ _ _ Hpx) as [Hy Hx].
    intros [= <-] nc' click' Hnc' Hin. fields in Hnc'. fields in Hin.
    injection Hnc' as <-.
    rewrite <- (pixel_shape nc) by done.
    assert (∃ y' x', Np.pixel nc (coords click') = Some (y', x') ∧
              ((y', x') = (y, x) ∨ Np.item nc y' x' = Some false)) as (y' & x' & Hpx' & Hor).
    { apply elem_of_app in Hin as [Hin|Hin].
      - destruct (Hcover nc click' Hnc Hin) as (y' & x' & ? & ?). eauto 6.
      - apply list_elem_of_singleton in Hin as ->. eauto 6. }
    exists y', x'. split; [done|].
    destruct (decide ((y', x') = (y, x))) as [[= -> ->]|Hne].
    + by apply item_stored_eq.
    + rewrite item_stored_ne by done. by destruct Hor.
  - intros [= <-] nc click' Hnc. fields in Hnc. rewrite Hnone in Hnc; done.
Qed.

Lemma add_click_Ok click self :
  consistent self →
  (∀ nc, not_clicked_map self = Some nc → is_Some (Np.pixel nc (coords click))) →
  ∃ self', add_click click self = (Ok tt, self') ∧
    gt_mask self' = gt_mask self ∧ not_ignore_mask self' = not_ignore_mask self ∧
    clicks_list self' = clicks_list self ++ [click] ∧
    (∀ nc, not_clicked_map self = Some nc →
       ∃ nc', not_clicked_map self' = Some nc' ∧ Np.shape nc' = Np.shape nc).
Proof.
  intros (Hshape & Hnone & _) Hin. rewrite add_click_eq.
  destruct (gt_mask self) as [g|] eqn:Hg.
  - destruct (Hshape g Hg) as (ni & nc & Hni & Hnc & Hsni & Hsnc & Hwf).
    rewrite Hnc, setitem_eq. destruct (Hin nc Hnc) as [[y x] ->].
    eexists. split; [done|]. fields. split_and!; try done.
    intros nc' [= <-]. eauto.
  - eexists. split; [done|]. fields. split_and!; try done.
    intros nc Hnc. rewrite Hnone in Hnc; done.
Qed.

(** Replaying clicks whose pixels lie in the map returns, and leaves a
    consistent object whose clicks are marked. *)
Lemma for_each_add_click_Ok clicks : ∀ self,
  consistent self → clicks_marked self →
  (∀ nc click, not_clicked_map self = Some nc → click ∈ clicks →
     is_Some (Np.pixel nc (coords click))) →
  ∃ self', for_each clicks add_click self = (Ok tt, self') ∧
    consistent self' ∧ clicks_marked self' ∧
    gt_mask self' = gt_mask self ∧ not_ignore_mask self' = not_ignore_mask self ∧
    clicks_list self' = clicks_list self ++ clicks.
Proof.
  induction clicks as [|click clicks IH]; intros self Hc Hcover Hin.
  - exists self. rewrite app_nil_r. done.
  - destruct (add_click_Ok click self Hc) as (self1 & Hadd & Hg1 & Hni1 & Hl1 & Hmap1).
    { intros nc Hnc. apply (Hin nc); [done|left]. }
    destruct (IH self1) as (self' & Hrun & Hc' & Hcover' & Hg' & Hni' & Hl').
    + change self1 with (Ok (), self1).2. rewrite <- Hadd. by apply add_click_consistent.
    + by eapply add_click_marked.
    + intros nc1 click' Hnc1 Hin'.
      destruct (not_clicked_map self) as [nc|] eqn:Hnc.
      * destruct (Hmap1 nc eq_refl) as (nc1' & Hnc1' & Hs).
        rewrite Hnc1 in Hnc1'. injection Hnc1' as <-.
        rewrite (pixel_shape nc1 nc) by done. apply (Hin nc); [done|by right].
      * destruct Hc as (Hshape & Hnone & _).
        destruct (gt_mask self) as [g|] eqn:Hg.
        -- destruct (Hshape g Hg) as (? & ? & _ & ? & _). congruence.
        -- rewrite add_click_eq, Hg in Hadd. injection Hadd as <-.
           fields in Hnc1. congruence.
    + exists self'. simpl. unfold bind. rewrite Hadd.
      split_and!; [done..|congruence|congruence|].
      rewrite Hl', Hl1, <- app_assoc. done.
Qed.

(** ** Extensionality of the state *)

Lemma Clicker_ext (a b : Clicker) :
  gt_mask a = gt_mask b → not_ignore_mask a = not_ignore_mask b →
  not_clicked_map a = not_clicked_map b →
  num_pos_clicks a = num_pos_clicks b → num_neg_clicks a = num_neg_clicks b →
  clicks_list a = clicks_list b → a = b.
Proof. destruct a, b. simpl. by intros -> -> -> -> -> ->. Qed.

Lemma run_calls_reachable calls : ∀ self, reachable self → reachable (run_calls calls self).
Proof.
  induction calls as [|c calls IH]; intros self Hr; [done|].
  simpl. apply IH. eapply (reachable_call c self); [done|]. apply surjective_pairing.
Qed.

(** ** The history calls keep a tidy state tidy *)

Lemma for_each_add_click_marked clicks : ∀ self self',
  consistent self → clicks_marked self →
  for_each clicks add_click self = (Ok tt, self') → clicks_marked self'.
Proof.
  induction clicks as [|click clicks IH]; intros self self' Hc Hcover; simpl.
  - by intros [= <-].
  - unfold bind. destruct (add_click click self) as [[[]|e] self1] eqn:Hadd; [|done].
    apply IH; [|by eapply add_click_marked].
    change self1 with (Ok (), self1).2. rewrite <- Hadd. by apply add_click_consistent.
Qed.

Lemma new_marked gt init_clicks ignore_label self :
  new gt init_clicks ignore_label = Ok self → clicks_marked self.
Proof.
  unfold new. destruct (__init__ _ _ _ blank) as [[[]|e] self'] eqn:Hinit; [|done].
  intros [= <-]. revert Hinit.
  unfold __init__, mbind, M_bind, bind. destruct gt as [lbl|]; cbn [modify];
    rewrite reset_clicks_eq.
  - match goal with |- context [cleared ?s] => assert (consistent (cleared s)) as Hc end.
    { apply cleared_consistent; [|done]. intros g [= <-]. eauto. }
    destruct init_clicks as [clicks|].
    + apply for_each_add_click_marked; [done|]. intros nc click _ Hin.
      by apply elem_of_nil in Hin.
    + intros [= <-] nc click _ Hin. by apply elem_of_nil in Hin.
  - match goal with |- context [cleared ?s] => assert (consistent (cleared s)) as Hc end.
    { apply cleared_consistent; [|done]. intros g [=]. }
    destruct init_clicks as [clicks|].
    + apply for_each_add_click_marked; [done|]. intros nc click _ Hin.
      by apply elem_of_nil in Hin.
    + intros [= <-] nc click _ Hin. by apply elem_of_nil in Hin.
Qed.

Lemma add_click_tidy click self self' :
  tidy self →
  (∀ nc, not_clicked_map self = Some nc →
     Np.pixel nc (coords click) ∉ click_pixels nc (clicks_list self)) →
  add_click click self = (Ok tt, self') → tidy self'.
Proof.
  intros (Hc & Hcover & Hdistinct) Hfresh Hadd. split_and!.
  - change self' with (Ok (), self').2. rewrite <- Hadd. by apply add_click_consistent.
  - by eapply add_click_marked.
  - destruct Hc as (Hshape & Hnone & _). rewrite add_click_eq in Hadd.
    destruct (gt_mask self) as [g|] eqn:Hg.
    + destruct (Hshape g Hg) as (ni & nc & Hni & Hnc & Hsni & Hsnc & Hwf).
      rewrite Hnc, setitem_eq in Hadd.
      destruct (Np.pixel nc (coords click)) as [[y x]|] eqn:Hpx; [|done].
      injection Hadd as <-. intros nc' Hnc'. fields in Hnc'. injection Hnc' as <-. fields.
      rewrite (click_pixels_shape _ nc), click_pixels_snoc by done.
      apply NoDup_app. split_and!.
      * by apply Hdistinct.
      * intros p Hp ->%list_elem_of_singleton. by apply (Hfresh nc).
      * apply NoDup_singleton.
    + injection Hadd as <-. intros nc Hnc. fields in Hnc. rewrite Hnone in Hnc; done.
Qed.

Lemma _remove_last_click_tidy self self' :
  tidy self → _remove_last_click self = (Ok tt, self') → tidy self'.
Proof.
  intros (Hc & Hcover & Hdistinct) Hrem. split_and!.
  { change self' with (Ok (), self').2. rewrite <- Hrem.
    by apply _remove_last_click_consistent. }
  all: destruct Hc as (Hshape & Hnone & _); rewrite _remove_last_click_eq in Hrem;
    destruct (last (clicks_list self)) as [click|] eqn:Hlast; [|done];
    apply last_Some in Hlast as [rest Hl]; rewrite Hl, removelast_last in Hrem;
    cbn zeta in Hrem; destruct (gt_mask self) as [g|] eqn:Hg.
  - destruct (Hshape g Hg) as (ni & nc & Hni & Hnc & Hsni & Hsnc & Hwf).
    rewrite Hnc, setitem_eq in Hrem.
    destruct (Np.pixel nc (coords click)) as [[y x]|] eqn:Hpx; [|done].
    pose proof (pixel_lt _ _ _ _ Hpx) as [Hy Hx].
    injection Hrem as <-. intros nc' click' Hnc' Hin. fields in Hnc'. fields in Hin.
    injection Hnc' as <-. rewrite <- (pixel_shape nc) by done.
    destruct (Hcover nc click' Hnc) as (y' & x' & Hpx' & Hf).
    { rewrite Hl, elem_of_app. by left. }
    exists y', x'. split; [done|]. rewrite item_stored_ne; [done..|].
    intros [= -> ->]. specialize (Hdistinct nc Hnc).
    rewrite Hl, click_pixels_snoc, Hpx in Hdistinct.
    apply NoDup_app in Hdistinct as (_ & Hnotin & _).
    apply (Hnotin (Some (y, x))); [|left].
    apply elem_of_click_pixels. eauto.
  - injection Hrem as <-. intros nc click' Hnc. fields in Hnc. rewrite Hnone in Hnc; done.
  - destruct (Hshape g Hg) as (ni & nc & Hni & Hnc & Hsni & Hsnc & Hwf).
    rewrite Hnc, setitem_eq in Hrem.
    destruct (Np.pixel nc (coords click)) as [[y x]|] eqn:Hpx; [|done].
    injection Hrem as <-. intros nc' Hnc'. fields in Hnc'. injection Hnc' as <-. fields.
    rewrite (click_pixels_shape _ nc) by done.
    specialize (Hdistinct nc Hnc). rewrite Hl, click_pixels_snoc in Hdistinct.
    by apply NoDup_app in Hdistinct as (? & _).
  - injection Hrem as <-. intros nc Hnc. fields in Hnc. rewrite Hnone in Hnc; done.
Qed.

Lemma reset_clicks_tidy self self' :
  consistent self → reset_clicks self = (Ok tt, self') → tidy self'.
Proof.
  intros Hc. pose proof (reset_clicks_consistent self Hc) as Hc'.
  rewrite reset_clicks_eq in *. intros [= <-]. split_and!; [done| |].
  - intros nc click _ Hin. by apply elem_of_nil in Hin.
  - intros nc _. apply NoDup_nil_2.
Qed.

Lemma history_tidy calls : ∀ self0 self,
  tidy self0 → fresh_adds calls self0 →
  for_each calls run_history_call self0 = (Ok tt, self) → tidy self.
Proof.
  induction calls as [|c calls IH]; intros self0 self Htidy Hfresh; simpl.
  - by intros [= <-].
  - unfold bind. destruct Hfresh as [Hc Hfresh].
    destruct (run_history_call c self0) as [[[]|e] self1] eqn:Hrun; [|done].
    apply IH; [|done]. destruct c as [click| |]; simpl in Hrun.
    + by eapply add_click_tidy.
    + by eapply _remove_last_click_tidy.
    + eapply reset_clicks_tidy; [|done]. apply Htidy.
Qed.

Lemma tidy_click_state_invariant self : tidy self → click_state_invariant self.
Proof.
  intros (Hc & Hcover & _). split.
  - destruct Hc as (_ & _ & -> & -> & _). apply count_clicks_total.
  - intros nc Hnc y x Hy Hx. split; [by apply marks_exact|].
    intros Hnotin. pose proof Hc as (Hshape & Hnone & _).
    destruct (gt_mask self) as [g|] eqn:Hg; [|rewrite Hnone in Hnc; done].
    destruct (Hshape g Hg) as (ni & nc' & _ & Hnc' & _ & _ & Hwf).
    rewrite Hnc in Hnc'. injection Hnc' as <-.
    destruct (item_wf_is_Some nc y x Hwf Hy Hx) as [[] Hb]; [done|].
    destruct Hnotin. by apply (marks_exact self).
Qed.

(** ** Simulated clicks do not repeat while an error remains *)

Lemma make_next_click_distinct pred self self' g :
  consistent self → clicks_marked self → NoDup (coords <$> clicks_list self) →
  gt_mask self = Some g → Np.shape pred = Np.shape g →
  (∀ fn fp, masked_distances pred self = Ok (fn, fp) →
     ¬ (is_maximum fn 0%Z ∧ is_maximum fp 0%Z)) →
  make_next_click pred self = (Ok tt, self') →
  consistent self' ∧ clicks_marked self' ∧ NoDup (coords <$> clicks_list self') ∧
  gt_mask self' = Some g.
Proof.
  intros Hc Hcover Hnodup Hg Hsp Hnz Hnext.
  pose proof Hc as (Hshape & _).
  destruct (decide (Np.nrows g = 0 ∨ Np.ncols g = 0)) as [Hz|Hpos].
  { rewrite make_next_click_eq, Hg, (_get_click_empty pred self g) in Hnext; done. }
  destruct (make_next_click_fresh_unless_zero pred self g)
    as (nc & fn & fp & fn_max & fp_max & click & y & x & Hnc & Hmd & Hfn_max & Hfp_max &
        Hget & Hxy & Hfresh); [done|done|done|lia|lia|].
  destruct (masked_distances_Ok _ _ _ _ Hmd) as (Hwfn & Hwfp & _).
  assert (Np.item nc y x = Some true) as Htrue.
  { apply Hfresh. intros [= -> ->]. apply (Hnz fn fp Hmd).
    split; by apply max_is_maximum. }
  pose proof (item_Some_lt _ _ _ _ Htrue) as [Hy Hx].
  rewrite make_next_click_eq, Hg, Hget in Hnext.
  split_and!.
  - change self' with (Ok (), self').2. rewrite <- Hnext. by apply add_click_consistent.
  - by eapply add_click_marked.
  - rewrite (add_click_in_bounds click self g nc y x) in Hnext; [|done..|].
    2: { rewrite Hxy. by apply pixel_of_nat. }
    injection Hnext as <-. fields. rewrite fmap_app. apply NoDup_app. split_and!.
    + done.
    + intros c (click' & -> & Hin)%list_elem_of_fmap Heq%list_elem_of_singleton.
      destruct (Hcover nc click' Hnc Hin) as (y' & x' & Hpx' & Hfalse).
      rewrite Heq, Hxy, (pixel_of_nat nc y x) in Hpx' by done.
      injection Hpx' as <- <-. congruence.
    + apply NoDup_singleton.
  - rewrite (add_click_in_bounds click self g nc y x) in Hnext; [|done..|].
    2: { rewrite Hxy. by apply pixel_of_nat. }
    injection Hnext as <-. by fields.
Qed.

(** As long as some error remains at every call (the maxima are not both
    0), the clicks that [make_next_click] accumulates on a fresh Clicker
    have pairwise distinct coordinates. *)
Lemma make_next_click_no_repeat_while_error lbl ignore_label preds self0 self :
  new (Some lbl) None ignore_label = Ok self0 →
  Forall (λ pred, Np.shape pred = Np.shape lbl) preds →
  never_both_zero preds self0 →
  for_each preds make_next_click self0 = (Ok tt, self) →
  NoDup (coords <$> clicks_list self).
Proof.
  intros Hnew Hshapes Hnz Hrun.
  assert (consistent self0 ∧ clicks_marked self0 ∧ NoDup (coords <$> clicks_list self0) ∧
          ∃ g, gt_mask self0 = Some g ∧ Np.shape g = Np.shape lbl) as Hinv.
  { split_and!; [by eapply new_consistent|by eapply new_marked| |].
    - unfold new in Hnew. injection Hnew as <-. apply NoDup_nil_2.
    - unfold new in Hnew. injection Hnew as <-. eexists. split; done. }
  clear Hnew. revert self0 Hinv Hnz Hrun.
  induction Hshapes as [|pred preds Hsp _ IH];
    intros self0 (Hc & Hcover & Hnodup & g & Hg & Hsg) Hnz; simpl.
  - by intros [= <-].
  - unfold bind. destruct Hnz as [Hnz0 Hnz].
    destruct (make_next_click pred self0) as [[[]|e] self1] eqn:Hnext; [|done].
    destruct (make_next_click_distinct pred self0 self1 g)
      as (Hc1 & Hcover1 & Hnodup1 & Hg1); [done..|congruence|done|done|].
    apply IH; [|done]. split_and!; eauto.
Qed.

(** * The properties of the specification *)

(** ** C1: the click that make_next_click selects *)

(** C1: for a Clicker constructed with a ground-truth mask and a predicted
    mask of the same shape, the click that [make_next_click] computes and
    appends is positive exactly when the maximum of the masked
    false-negative distance map is strictly greater than the maximum of the
    masked false-positive one, its coordinate is the first pixel in
    row-major order attaining the maximum of the chosen map, and equal
    maxima give a negative click.  (A mask without pixels has no maximum:
    then the call raises and computes no click.) *)
Theorem make_next_click_first_maximum pred self g :
  reachable self → gt_mask self = Some g → Np.shape pred = Np.shape g →
  ((Np.nrows g = 0 ∨ Np.ncols g = 0) ∧
   make_next_click pred self = (Raise ValueError, self)) ∨
  ∃ fn fp fn_max fp_max click self',
    masked_distances pred self = Ok (fn, fp) ∧
    is_maximum fn fn_max ∧ is_maximum fp fp_max ∧
    make_next_click pred self = (Ok tt, self') ∧
    clicks_list self' = clicks_list self ++ [click] ∧
    (is_positive click = true ↔ (fn_max > fp_max)%Z) ∧
    (fn_max = fp_max → is_positive click = false) ∧
    ∃ y x, coords click = (Z.of_nat y, Z.of_nat x) ∧
      if is_positive click then row_major_first fn fn_max y x
      else row_major_first fp fp_max y x.
Proof.
  intros Hreach Hg Hsp. apply reachable_consistent in Hreach as [Hshape _].
  destruct (decide (Np.nrows g = 0 ∨ Np.ncols g = 0)) as [Hz|Hnz].
  - left. split; [done|].
    by rewrite make_next_click_eq, Hg, (_get_click_empty pred self g).
  - right.
    destruct (make_next_click_selects pred self g)
      as (nc & fn & fp & fn_max & fp_max & y & x & Hnc & Hsnc & Hwf & Hmd & Hwfn & Hwfp &
          _ & _ & _ & _ & Hfn_max & Hfp_max & Hfirst & Hy & Hx & _ & Hnext);
      [done..|lia|lia|].
    eexists fn, fp, fn_max, fp_max, _, _.
    split_and!; [done|by apply max_is_maximum..|exact Hnext| | | |].
    + fields. done.
    + cbn [is_positive]. rewrite Z.gtb_gt. done.
    + cbn [is_positive]. intros ->. rewrite Z.gtb_ltb. apply Z.ltb_irrefl.
    + exists y, x. split; [done|]. exact Hfirst.
Qed.

Lemma make_next_click_first_maximum_witness :
  reachable clicker22 ∧ gt_mask clicker22 = Some (all22 true) ∧
  Np.shape (all22 false) = Np.shape (all22 true) ∧
  (((Np.nrows (all22 true) = 0 ∨ Np.ncols (all22 true) = 0) ∧
    make_next_click (all22 false) clicker22 = (Raise ValueError, clicker22)) ∨
   ∃ fn fp fn_max fp_max click self',
     masked_distances (all22 false) clicker22 = Ok (fn, fp) ∧
     is_maximum fn fn_max ∧ is_maximum fp fp_max ∧
     make_next_click (all22 false) clicker22 = (Ok tt, self') ∧
     clicks_list self' = clicks_list clicker22 ++ [click] ∧
     (is_positive click = true ↔ (fn_max > fp_max)%Z) ∧
     (fn_max = fp_max → is_positive click = false) ∧
     ∃ y x, coords click = (Z.of_nat y, Z.of_nat x) ∧
       if is_positive click then row_major_first fn fn_max y x
       else row_major_first fp fp_max y x).
Proof.
  assert (reachable clicker22) as Hr
    by exact (reachable_new (Some ones22) None (-1) clicker22 eq_refl).
  split_and!; [exact Hr|reflexivity|reflexivity|].
  apply (make_next_click_first_maximum (all22 false) clicker22 (all22 true));
    [exact Hr|reflexivity|reflexivity].
Defined.


(** ** C2: repeated coordinates *)

(** C2: two calls of [make_next_click] with a prediction equal to the
    ground truth: both maxima are 0 each time, and both clicks land on the
    origin, so the click list holds the same coordinate twice. *)
Theorem make_next_click_repeats_origin :
  new (Some ones22) None (-1) = Ok clicker22 ∧
  ∃ self,
    for_each [all22 true; all22 true] make_next_click clicker22 = (Ok tt, self) ∧
    clicks_list self = [mk_Click false (0, 0)%Z; mk_Click false (0, 0)%Z] ∧
    ¬ NoDup (coords <$> clicks_list self).
Proof.
  split; [reflexivity|]. eexists. split; [vm_compute; reflexivity|].
  split; [reflexivity|]. cbn. rewrite NoDup_cons. intros [Hnotin _].
  apply Hnotin. left.
Qed.


(** ** C3: predicted masks of another shape *)

(** C3, counterexample: against a 2 by 2 ground truth a 1 by 1 predicted
    mask is broadcast without notice, and the call returns with a click
    appended. *)
Lemma shape_mismatch_is_broadcast :
  make_next_click pred11 clicker22 =
    (Ok tt, set_not_clicked_map (Np.mk_ndarray 2 2 [false; true; true; true])
              (counted (mk_Click false (0, 0)%Z) clicker22)) ∧
  ¬ shape_mismatch_fails pred11 clicker22.
Proof.
  assert (make_next_click pred11 clicker22 =
            (Ok tt, set_not_clicked_map (Np.mk_ndarray 2 2 [false; true; true; true])
                      (counted (mk_Click false (0, 0)%Z) clicker22))) as Heq
    by (vm_compute; reflexivity).
  split; [exact Heq|].
  intros Hclaim. destruct (Hclaim (all22 true)) as [e He]; [reflexivity|discriminate|].
  rewrite Heq in He. discriminate.
Qed.

(** C3, amended: a predicted mask whose shape cannot be broadcast against
    the ground truth's (on some axis the lengths differ and neither is 1)
    makes [make_next_click] fail with the [ValueError] of the first mask
    operation, and the object is left as it was. *)
Theorem make_next_click_shape_mismatch pred self g :
  gt_mask self = Some g →
  Np.broadcast_shape (Np.shape g) (Np.shape pred) = None →
  make_next_click pred self = (Raise ValueError, self).
Proof.
  intros Hg Hbs. rewrite make_next_click_eq, Hg.
  unfold _get_click, masked_distances. rewrite Hg. cbn [mbind outcome_bind obind].
  unfold Np.logical_and.
  by rewrite (zip_with_incompatible andb g (Np.logical_not pred)) by exact Hbs.
Qed.

Lemma make_next_click_shape_mismatch_witness :
  gt_mask clicker22 = Some (all22 true) ∧
  Np.broadcast_shape (Np.shape (all22 true)) (Np.shape pred33) = None ∧
  make_next_click pred33 clicker22 = (Raise ValueError, clicker22).
Proof.
  split_and!; [reflexivity|reflexivity|].
  apply (make_next_click_shape_mismatch pred33 clicker22 (all22 true)); reflexivity.
Defined.


(** ** C4: the invariant of the click history *)

(** C4, counterexample: two clicks on the origin, the second one undone. The
    calls return, the list still holds the first click, and the origin is
    marked as not clicked. *)
Lemma history_breaks_invariant :
  for_each [HAddClick (mk_Click true (0, 0)%Z); HAddClick (mk_Click true (0, 0)%Z);
            HRemoveLastClick] run_history_call clicker22 = (Ok tt, clicker22_undone) ∧
  ¬ history_keeps_invariant
      [HAddClick (mk_Click true (0, 0)%Z); HAddClick (mk_Click true (0, 0)%Z);
       HRemoveLastClick] clicker22.
Proof.
  assert (for_each [HAddClick (mk_Click true (0, 0)%Z); HAddClick (mk_Click true (0, 0)%Z);
                    HRemoveLastClick] run_history_call clicker22 = (Ok tt, clicker22_undone))
    as Hrun by (vm_compute; reflexivity).
  split; [exact Hrun|]. intros Hclaim.
  destruct (Hclaim _ Hrun) as [_ Hmarks].
  destruct (Hmarks (all22 true) eq_refl 0 0) as [Hfalse _]; [simpl; lia..|].
  assert (Np.item (all22 true) 0 0 = Some false) as Hitem by (apply Hfalse; left).
  discriminate.
Qed.

(** C4, amended: on a Clicker constructed with a ground-truth mask and
    initial clicks on pairwise distinct pixels, after any sequence of
    [add_click], [remove_last_click] and [reset_clicks] calls that returned,
    in which no [add_click] designates a pixel that a click of the list
    designates at that time, the two counters add up to the length of the
    click list, every pixel designated by a click of the list has
    [not_clicked] false and every other pixel has [not_clicked] true. *)
Theorem click_history_invariant lbl init_clicks ignore_label calls self0 self :
  new (Some lbl) init_clicks ignore_label = Ok self0 →
  clicks_distinct self0 →
  fresh_adds calls self0 →
  for_each calls run_history_call self0 = (Ok tt, self) →
  click_state_invariant self.
Proof.
  intros Hnew Hdistinct Hfresh Hrun. apply tidy_click_state_invariant.
  apply (history_tidy calls self0); [|done..].
  split_and!; [by eapply new_consistent|by eapply new_marked|done].
Qed.

Lemma click_history_invariant_witness :
  click_state_invariant
    (for_each [HAddClick (mk_Click true (0, 0)%Z); HAddClick (mk_Click false (1, 1)%Z);
               HRemoveLastClick; HAddClick (mk_Click false (0, 1)%Z)]
              run_history_call clicker22).2.
Proof.
  apply (click_history_invariant ones22 None (-1)
           [HAddClick (mk_Click true (0, 0)%Z); HAddClick (mk_Click false (1, 1)%Z);
            HRemoveLastClick; HAddClick (mk_Click false (0, 1)%Z)] clicker22).
  - reflexivity.
  - intros nc Hnc. apply NoDup_nil_2.
  - simpl. split_and!; try exact I; intros nc Hnc; injection Hnc as <-; vm_compute;
      intros Hin; repeat (apply elem_of_cons in Hin as [Hin|Hin]; [discriminate|]);
      by apply elem_of_nil in Hin.
  - reflexivity.
Defined.


(** ** C5: set_state after get_state *)

(** C5, counterexample: after the origin was clicked twice and the second
    click undone, the list holds the first click while the origin is marked
    as not clicked; [set_state(get_state())] marks it as clicked. *)
Lemma state_round_trip_remarks :
  reachable clicker22_undone ∧
  clicks_list clicker22_undone = [mk_Click true (0, 0)%Z] ∧
  not_clicked_map clicker22_undone = Some (all22 true) ∧
  not_clicked_map ((state ← get_state; set_state state) clicker22_undone).2 =
    Some (Np.mk_ndarray 2 2 [false; true; true; true]) ∧
  ¬ state_round_trip clicker22_undone.
Proof.
  split_and!; [|reflexivity..|].
  - apply (run_calls_reachable
             [AddClick (mk_Click true (0, 0)%Z); AddClick (mk_Click true (0, 0)%Z);
              RemoveLastClick] clicker22), clicker22_reachable.
  - unfold state_round_trip. intros Heq.
    apply (f_equal (λ r, not_clicked_map r.2)) in Heq. vm_compute in Heq. discriminate.
Qed.

(** C5, amended: in a reachable state in which every click of the list has
    its pixel marked as clicked (the invariant of the data model),
    [set_state(get_state())] returns and leaves the click list, both
    counters and [not_clicked_map] as they were. *)
Theorem set_state_get_state self :
  reachable self → clicks_marked self →
  (state ← get_state; set_state state) self = (Ok tt, self).
Proof.
  intros Hc%reachable_consistent Hcover.
  unfold mbind, M_bind, bind, get_state, read. rewrite set_state_eq.
  pose proof (reset_clicks_consistent self Hc) as Hc0. rewrite reset_clicks_eq in Hc0.
  cbn [snd] in Hc0.
  destruct (for_each_add_click_Ok (clicks_list self) (cleared self))
    as (self' & Hrun & Hc' & Hcover' & Hg' & Hni' & Hl'); [done| | |].
  { intros nc click _ Hin. by apply elem_of_nil in Hin. }
  { intros nc0 click Hnc0 Hin. fields in Hnc0.
    destruct Hc as (Hshape & Hnone & _).
    destruct (gt_mask self) as [g|] eqn:Hg.
    - destruct (Hshape g Hg) as (ni & nc & Hni & Hnc & Hsni & Hsnc & Hwf).
      injection Hnc0 as <-.
      destruct (Hcover nc click Hnc Hin) as (y & x & Hpx & _).
      rewrite (pixel_shape _ nc) by done. eauto.
    - rewrite Hnone in Hnc0; done. }
  rewrite Hrun. f_equal. fields in Hg'. fields in Hni'. fields in Hl'.
  rewrite app_nil_l in Hl'.
  pose proof Hc as (Hshape & Hnone & Hpos & Hneg & _).
  pose proof Hc' as (Hshape' & Hnone' & Hpos' & Hneg' & _).
  apply Clicker_ext; [done|done| |congruence|congruence|done].
  destruct (gt_mask self) as [g|] eqn:Hg.
  - destruct (Hshape g Hg) as (ni & nc & Hni & Hnc & Hsni & Hsnc & Hwf).
    destruct (Hshape' g Hg') as (ni' & nc' & _ & Hnc' & _ & Hsnc' & Hwf').
    rewrite Hnc, Hnc'. f_equal. apply mask_ext; [done|done|congruence|].
    intros y x. rewrite (marks_exact self' nc'), (marks_exact self nc) by done.
    rewrite Hl'. rewrite (click_pixels_shape nc' nc) by congruence. done.
  - rewrite Hnone, Hnone' by done. done.
Qed.

Lemma set_state_get_state_witness :
  (state ← get_state; set_state state) clicker22_clicked = (Ok tt, clicker22_clicked).
Proof.
  apply (set_state_get_state clicker22_clicked).
  - apply (reachable_call (MakeNextClick (all22 false)) clicker22 (Ok tt));
      [exact (reachable_new (Some ones22) None (-1) clicker22 eq_refl)|reflexivity].
  - intros nc click Hnc Hin. injection Hnc as <-.
    exists 0, 0. apply list_elem_of_singleton in Hin as ->. split; reflexivity.
Defined.


(** ** C6: add_click undone by remove_last_click *)

(** C6, counterexample: adding a click on the origin, which is already
    marked as clicked, and removing it again leaves the origin marked as
    not clicked. *)
Lemma add_then_remove_unmarks :
  Np.pixel (all22 true) (0, 0)%Z = Some (0, 0) ∧
  not_clicked_map clicker22_clicked = Some (Np.mk_ndarray 2 2 [false; true; true; true]) ∧
  not_clicked_map
      ((add_click (mk_Click true (0, 0)%Z);; _remove_last_click) clicker22_clicked).2 =
    Some (all22 true) ∧
  ¬ add_then_remove_restores (mk_Click true (0, 0)%Z) clicker22_clicked.
Proof.
  split_and!; [reflexivity..|]. unfold add_then_remove_restores.
  intros Heq. apply (f_equal (λ r, not_clicked_map r.2)) in Heq.
  vm_compute in Heq. discriminate.
Qed.

(** C6, amended: when the pixel of [c] lies in the map and is still marked
    as not yet clicked (or the Clicker has no ground truth, hence no map),
    [add_click(c)] followed by [remove_last_click()] returns and restores
    exactly the prior object: click list, counters and [not_clicked_map]. *)
Theorem add_click_remove_last_click click self :
  (∀ g, gt_mask self = Some g →
     ∃ nc y x, not_clicked_map self = Some nc ∧
               Np.pixel nc (coords click) = Some (y, x) ∧
               Np.item nc y x = Some true) →
  (add_click click;; _remove_last_click) self = (Ok tt, self).
Proof.
  intros Hfree. unfold mbind, M_bind, bind. rewrite add_click_eq.
  destruct (gt_mask self) as [g|] eqn:Hg.
  - destruct (Hfree g eq_refl) as (nc & y & x & Hnc & Hpx & Htrue).
    rewrite Hnc, setitem_eq, Hpx, _remove_last_click_eq. fields.
    rewrite last_snoc, removelast_last, Hg. cbn zeta. fields.
    rewrite setitem_eq, <- (pixel_shape nc) by done. rewrite Hpx.
    rewrite (stored_stored_id nc y x false true) by done.
    f_equal. by apply set_map_uncounted_counted.
  - rewrite _remove_last_click_eq. fields.
    rewrite last_snoc, removelast_last, Hg. cbn zeta.
    by rewrite uncounted_counted.
Qed.

Lemma add_click_remove_last_click_witness :
  (add_click (mk_Click true (1, 1)%Z);; _remove_last_click) clicker22_clicked =
    (Ok tt, clicker22_clicked).
Proof.
  apply (add_click_remove_last_click (mk_Click true (1, 1)%Z) clicker22_clicked).
  intros g Hg.
  exists (Np.mk_ndarray 2 2 [false; true; true; true]), 1, 1.
  split_and!; reflexivity.
Defined.


(** ** C7: both maxima zero *)

(** C7, counterexample: after a click at the origin, a prediction equal to
    the ground truth makes both maxima 0 and the negative click lands on
    the origin again, a pixel that is marked as clicked; the first pixel
    still marked as not clicked is (0, 1). *)
Lemma zero_maxima_select_clicked_origin :
  masked_distances (all22 true) clicker22_clicked = Ok (zeros22, zeros22) ∧
  is_maximum zeros22 0%Z ∧
  _get_click (all22 true) clicker22_clicked = Ok (mk_Click false (0, 0)%Z) ∧
  not_clicked_map clicker22_clicked = Some (Np.mk_ndarray 2 2 [false; true; true; true]) ∧
  first_not_clicked (Np.mk_ndarray 2 2 [false; true; true; true]) 0 1 ∧
  ¬ zero_maxima_select_first_not_clicked (all22 true) clicker22_clicked.
Proof.
  assert (is_maximum zeros22 0%Z) as Hmax by (by apply max_is_maximum).
  split_and!; [by vm_compute|done|by vm_compute|done| |].
  - split; [done|]. intros y' x' Hv. destruct y' as [|y']; [|lia].
    destruct x' as [|x']; [discriminate|lia].
  - intros Hclaim.
    destruct (Hclaim (all22 true) (Np.mk_ndarray 2 2 [false; true; true; true])
                zeros22 zeros22) as (click & y & x & Hget & _ & Hxy & [Hnc _]);
      [done|done|by vm_compute|done|done|].
    assert (_get_click (all22 true) clicker22_clicked = Ok (mk_Click false (0, 0)%Z))
      as Heq by (by vm_compute).
    rewrite Heq in Hget. injection Hget as <-. injection Hxy as Hy Hx.
    assert (y = 0) as -> by lia. assert (x = 0) as -> by lia. discriminate.
Qed.

(** C7, amended: with both maxima 0, [make_next_click] appends a negative
    click; when the origin (0, 0) is still marked as not yet clicked, the
    click sits at the origin, which is then the first not-yet-clicked pixel
    in row-major order. *)
Theorem zero_maxima_select_origin pred self g nc fn fp :
  gt_mask self = Some g → not_clicked_map self = Some nc →
  masked_distances pred self = Ok (fn, fp) →
  is_maximum fn 0%Z → is_maximum fp 0%Z →
  ∃ click self',
    make_next_click pred self = (Ok tt, self') ∧
    clicks_list self' = clicks_list self ++ [click] ∧
    is_positive click = false ∧
    (Np.item nc 0 0 = Some true →
       coords click = (0, 0)%Z ∧ first_not_clicked nc 0 0).
Proof.
  intros Hg Hnc Hmd Hfn Hfp.
  assert (0 < Np.nrows nc ∧ 0 < Np.ncols nc) as [Hh Hw].
  { destruct Hfp as [(y & x & Hv) _]. by eapply masked_distances_map_nonempty. }
  assert (make_next_click pred self =
            (Ok tt, set_not_clicked_map (stored nc 0 0 false)
                      (counted (mk_Click false (0, 0)%Z) self))) as Hnext.
  { rewrite make_next_click_eq, Hg, (_get_click_zero_maxima pred self fn fp) by done.
    apply (add_click_in_bounds _ _ g nc 0 0); [done..|].
    by apply (pixel_of_nat nc 0 0). }
  eexists (mk_Click false (0, 0)%Z), _. split_and!; [exact Hnext|by fields|done|].
  intros Horigin. split; [done|]. split; [done|]. intros y' x' _. lia.
Qed.

Lemma zero_maxima_select_origin_witness :
  ∃ click self',
    make_next_click (all22 true) clicker22 = (Ok tt, self') ∧
    clicks_list self' = clicks_list clicker22 ++ [click] ∧
    is_positive click = false ∧
    (Np.item (all22 true) 0 0 = Some true →
       coords click = (0, 0)%Z ∧ first_not_clicked (all22 true) 0 0).
Proof.
  apply (zero_maxima_select_origin (all22 true) clicker22 (all22 true) (all22 true)
           zeros22 zeros22); [reflexivity|reflexivity|vm_compute; reflexivity| |].
  - apply max_is_maximum; reflexivity.
  - apply max_is_maximum; reflexivity.
Defined.


(** ** C8: make_next_click without ground truth *)

(** C8: on a Clicker constructed without a ground-truth mask, whatever was
    called on it since, [make_next_click] fails on its assertion that a
    ground truth is present and leaves the object as it was. *)
Theorem make_next_click_without_ground_truth init_clicks ignore_label self0 calls pred :
  new None init_clicks ignore_label = Ok self0 →
  make_next_click pred (run_calls calls self0) =
    (Raise AssertionError, run_calls calls self0).
Proof.
  intros Hnew%new_no_gt. apply (run_calls_no_gt calls) in Hnew.
  by rewrite make_next_click_eq, Hnew.
Qed.

Lemma make_next_click_without_ground_truth_witness :
  new None None (-1) = Ok clicker_no_gt ∧
  make_next_click (all22 true)
      (run_calls [AddClick (mk_Click true (0, 1)%Z); MakeNextClick (all22 false)]
                 clicker_no_gt) =
    (Raise AssertionError,
     run_calls [AddClick (mk_Click true (0, 1)%Z); MakeNextClick (all22 false)]
               clicker_no_gt).
Proof.
  split; [reflexivity|].
  apply (make_next_click_without_ground_truth None (-1)). reflexivity.
Defined.


(** ** C9: get_clicks *)

(** C9: [get_clicks(limit)] with [0 <= limit] returns the first
    [min(limit, n)] clicks in insertion order, [get_clicks()] returns all
    the clicks, [get_clicks(0)] returns the empty sequence, and none of
    these calls changes the object. *)
Theorem get_clicks_prefix self limit :
  (0 ≤ limit)%Z →
  get_clicks (Some limit) self =
    (Ok (take (Z.to_nat limit `min` length (clicks_list self)) (clicks_list self)), self) ∧
  (∀ clicks, get_clicks (Some limit) self = (Ok clicks, self) →
     length clicks = Z.to_nat limit `min` length (clicks_list self) ∧
     clicks `prefix_of` clicks_list self) ∧
  get_clicks None self = (Ok (clicks_list self), self) ∧
  get_clicks (Some 0%Z) self = (Ok [], self).
Proof.
  intros Hlimit.
  assert (get_clicks (Some limit) self =
            (Ok (take (Z.to_nat limit `min` length (clicks_list self)) (clicks_list self)),
             self)) as Heq.
  { unfold get_clicks, read. rewrite decide_True by done.
    f_equal. f_equal. destruct (Nat.min_spec (Z.to_nat limit) (length (clicks_list self)))
      as [[_ ->]|[Hle ->]]; [done|].
    by rewrite !firstn_all2 by lia. }
  split_and!; [done| |done|done].
  intros clicks. rewrite Heq. intros [= <-]. split.
  - rewrite length_take. lia.
  - apply prefix_take.
Qed.

Lemma get_clicks_prefix_witness :
  (0 ≤ 2)%Z ∧
  get_clicks (Some 2%Z) clicker_five =
    (Ok [mk_Click true (0, 0)%Z; mk_Click false (0, 1)%Z], clicker_five) ∧
  get_clicks None clicker_five = (Ok five_clicks, clicker_five).
Proof.
  assert (0 ≤ 2)%Z as H02 by lia.
  destruct (get_clicks_prefix clicker_five 2 H02) as (Htwo & _ & Hall & _).
  split_and!; [exact H02|exact Htwo|exact Hall].
Defined.


(** ** C10: the selection succeeds within bounds *)

(** C10: with a non-empty ground truth and a predicted mask of its shape,
    the chosen distance map attains its maximum at some pixel, the selection
    of [_get_click] succeeds, and [make_next_click] returns after appending
    a click whose coordinate lies in [0,H) x [0,W). *)
Theorem make_next_click_in_bounds pred self g :
  reachable self → gt_mask self = Some g → Np.shape pred = Np.shape g →
  1 ≤ Np.nrows g → 1 ≤ Np.ncols g →
  ∃ fn fp click self' y x,
    masked_distances pred self = Ok (fn, fp) ∧
    _get_click pred self = Ok click ∧
    (∃ v, is_maximum (if is_positive click then fn else fp) v ∧
          Np.item (if is_positive click then fn else fp) y x = Some v) ∧
    coords click = (Z.of_nat y, Z.of_nat x) ∧
    y < Np.nrows g ∧ x < Np.ncols g ∧
    make_next_click pred self = (Ok tt, self') ∧
    last (clicks_list self') = Some click.
Proof.
  intros Hreach Hg Hsp Hh Hw. apply reachable_consistent in Hreach as [Hshape _].
  destruct (make_next_click_selects pred self g)
    as (nc & fn & fp & fn_max & fp_max & y & x & Hnc & Hsnc & Hwf & Hmd & Hwfn & Hwfp &
        _ & _ & _ & _ & Hfn_max & Hfp_max & Hfirst & Hy & Hx & Hget & Hnext);
    [done..|].
  eexists fn, fp, _, _, y, x.
  split_and!; [done|exact Hget| |done|done|done|exact Hnext|].
  - cbn [is_positive]. destruct (fn_max >? fp_max)%Z.
    + exists fn_max. split; [by apply max_is_maximum|apply Hfirst].
    + exists fp_max. split; [by apply max_is_maximum|apply Hfirst].
  - fields. apply last_snoc.
Qed.

Lemma make_next_click_in_bounds_witness :
  ∃ fn fp click self' y x,
    masked_distances (all22 false) clicker22 = Ok (fn, fp) ∧
    _get_click (all22 false) clicker22 = Ok click ∧
    (∃ v, is_maximum (if is_positive click then fn else fp) v ∧
          Np.item (if is_positive click then fn else fp) y x = Some v) ∧
    coords click = (Z.of_nat y, Z.of_nat x) ∧
    y < Np.nrows (all22 true) ∧ x < Np.ncols (all22 true) ∧
    make_next_click (all22 false) clicker22 = (Ok tt, self') ∧
    last (clicks_list self') = Some click.
Proof.
  apply (make_next_click_in_bounds (all22 false) clicker22 (all22 true));
    [exact (reachable_new (Some ones22) None (-1) clicker22 eq_refl)
    |reflexivity|reflexivity|simpl; lia|simpl; lia].
Defined.

(** * Further properties of the class *)

(** ** The constructor and the ground truth *)

Lemma __init___eq gt init_clicks ignore_label :
  __init__ gt init_clicks ignore_label blank =
    match init_clicks with
    | Some clicks => for_each clicks add_click (fresh gt ignore_label)
    | None => (Ok tt, fresh gt ignore_label)
    end.
Proof.
  unfold __init__, mbind, M_bind, bind. destruct gt as [lbl|]; cbn [modify];
    rewrite reset_clicks_eq; by destruct init_clicks.
Qed.

Lemma add_click_same_ground_truth s0 click :
  preserves (same_ground_truth s0) (add_click click).
Proof.
  intros self [Hg Hni]. rewrite add_click_eq.
  destruct (gt_mask self) as [g|] eqn:Hgs.
  - destruct (not_clicked_map self) as [nc|]; [|split; fields; congruence].
    destruct (Np.setitem nc (coords click) false); split; fields; congruence.
  - split; fields; congruence.
Qed.

Lemma run_call_same_ground_truth s0 c : preserves (same_ground_truth s0) (run_call c).
Proof.
  intros self Hs. pose proof Hs as [Hg Hni].
  destruct c; simpl; try done.
  - rewrite make_next_click_eq. destruct (gt_mask self); [|done].
    destruct (_get_click _ self); [by apply add_click_same_ground_truth|done].
  - by apply add_click_same_ground_truth.
  - rewrite _remove_last_click_eq. destruct (last _); [|done]. cbn zeta.
    destruct (gt_mask self) as [g|] eqn:Hgs.
    + destruct (not_clicked_map self) as [nc|]; [|split; fields; congruence].
      destruct (Np.setitem nc _ true); split; fields; congruence.
    + split; fields; congruence.
  - rewrite reset_clicks_eq. split; fields; congruence.
  - rewrite set_state_eq. apply for_each_preserves; [apply add_click_same_ground_truth|].
    split; fields; congruence.
Qed.

Lemma run_calls_same_ground_truth s0 calls : ∀ self,
  same_ground_truth s0 self → same_ground_truth s0 (run_calls calls self).
Proof.
  induction calls as [|c calls IH]; intros self Hs; [done|].
  simpl. apply IH. by apply run_call_same_ground_truth.
Qed.

Lemma new_same_ground_truth gt init_clicks ignore_label self :
  new gt init_clicks ignore_label = Ok self →
  same_ground_truth (fresh gt ignore_label) self.
Proof.
  unfold new. rewrite __init___eq. destruct init_clicks as [clicks|].
  - destruct (for_each clicks add_click (fresh gt ignore_label)) as [[[]|e] s] eqn:Hrun;
      [|done].
    intros [= <-]. change s with (Ok (), s).2. rewrite <- Hrun.
    by apply for_each_preserves; [apply add_click_same_ground_truth|].
  - by intros [= <-].
Qed.

Lemma cleared_run_calls gt init_clicks ignore_label self0 calls :
  new gt init_clicks ignore_label = Ok self0 →
  cleared (run_calls calls self0) = fresh gt ignore_label.
Proof.
  intros Hnew.
  pose proof (run_calls_same_ground_truth _ calls self0
                (new_same_ground_truth _ _ _ _ Hnew)) as [Hg Hni].
  assert (consistent (run_calls calls self0)) as (_ & Hnone & _).
  { apply reachable_consistent, run_calls_reachable. by eapply reachable_new. }
  apply Clicker_ext; fields; try done; try (by destruct gt).
  rewrite <- Hg in *. destruct gt as [lbl|]; [done|]. by apply Hnone.
Qed.

(** X1: the ground truth and the ignore mask are the ones computed at
    construction, whatever is called afterwards, and [not_clicked_map]
    always is a mask of the shape of the label map. *)
Theorem ground_truth_is_fixed lbl init_clicks ignore_label self0 calls :
  new (Some lbl) init_clicks ignore_label = Ok self0 →
  gt_mask (run_calls calls self0) = Some (foreground lbl) ∧
  not_ignore_mask (run_calls calls self0) = Some (not_ignored lbl ignore_label) ∧
  ∃ nc, not_clicked_map (run_calls calls self0) = Some nc ∧
        Np.shape nc = Np.shape lbl ∧ Np.wf nc.
Proof.
  intros Hnew.
  pose proof (run_calls_same_ground_truth _ calls self0
                (new_same_ground_truth _ _ _ _ Hnew)) as [Hg Hni].
  assert (consistent (run_calls calls self0)) as (Hshape & _).
  { apply reachable_consistent, run_calls_reachable. by eapply reachable_new. }
  split_and!; [done..|].
  destruct (Hshape (foreground lbl)) as (ni & nc & _ & Hnc & _ & Hsnc & Hwf); [done|].
  exists nc. done.
Qed.

Lemma ground_truth_is_fixed_witness :
  gt_mask (run_calls [AddClick (mk_Click true (5, 5)%Z); ResetClicks;
                      MakeNextClick (all22 false)] clicker22) =
    Some (foreground ones22) ∧
  not_ignore_mask (run_calls [AddClick (mk_Click true (5, 5)%Z); ResetClicks;
                              MakeNextClick (all22 false)] clicker22) =
    Some (not_ignored ones22 (-1)) ∧
  ∃ nc, not_clicked_map (run_calls [AddClick (mk_Click true (5, 5)%Z); ResetClicks;
                                    MakeNextClick (all22 false)] clicker22) = Some nc ∧
        Np.shape nc = Np.shape ones22 ∧ Np.wf nc.
Proof.
  apply (ground_truth_is_fixed ones22 None (-1) clicker22). reflexivity.
Defined.

(** X2: in every reachable state, also after calls that raised, each
    counter is the number of clicks of its polarity in the click list, and
    [__len__] is their sum. *)
Theorem counters_count_the_clicks self :
  reachable self →
  num_pos_clicks self = count_clicks true (clicks_list self) ∧
  num_neg_clicks self = count_clicks false (clicks_list self) ∧
  __len__ self = (Ok (Z.to_nat (num_pos_clicks self + num_neg_clicks self)), self).
Proof.
  intros (_ & _ & Hpos & Hneg & _)%reachable_consistent. split_and!; [done..|].
  unfold __len__, read. rewrite Hpos, Hneg, count_clicks_total, Nat2Z.id. done.
Qed.

Lemma counters_count_the_clicks_witness :
  num_pos_clicks clicker22_failed_add =
    count_clicks true (clicks_list clicker22_failed_add) ∧
  num_neg_clicks clicker22_failed_add =
    count_clicks false (clicks_list clicker22_failed_add) ∧
  __len__ clicker22_failed_add =
    (Ok (Z.to_nat (num_pos_clicks clicker22_failed_add +
                   num_neg_clicks clicker22_failed_add)), clicker22_failed_add).
Proof.
  apply (counters_count_the_clicks clicker22_failed_add).
  apply (reachable_call (AddClick (mk_Click true (5, 5)%Z)) clicker22 (Raise IndexError));
    [exact (reachable_new (Some ones22) None (-1) clicker22 eq_refl)|reflexivity].
Defined.

(** X3: in every reachable state a pixel marked as clicked is the pixel of
    a click that is in the list. *)
Theorem clicked_mark_has_click self nc y x :
  reachable self → not_clicked_map self = Some nc → Np.item nc y x = Some false →
  ∃ click, click ∈ clicks_list self ∧ Np.pixel nc (coords click) = Some (y, x).
Proof.
  intros (_ & _ & _ & _ & Hmark)%reachable_consistent Hnc Hf.
  by apply elem_of_click_pixels, Hmark.
Qed.

Lemma clicked_mark_has_click_witness :
  ∃ click, click ∈ clicks_list clicker22_clicked ∧
           Np.pixel (Np.mk_ndarray 2 2 [false; true; true; true]) (coords click) =
             Some (0, 0).
Proof.
  apply (clicked_mark_has_click clicker22_clicked
           (Np.mk_ndarray 2 2 [false; true; true; true]) 0 0).
  - apply (reachable_call (MakeNextClick (all22 false)) clicker22 (Ok tt));
      [exact (reachable_new (Some ones22) None (-1) clicker22 eq_refl)|reflexivity].
  - reflexivity.
  - reflexivity.
Defined.

(** ** Reset and restore *)

(** X4: [reset_clicks] always returns and puts the object back into the
    state in which the constructor leaves it without initial clicks. *)
Theorem reset_clicks_gives_fresh gt init_clicks ignore_label self0 calls :
  new gt init_clicks ignore_label = Ok self0 →
  reset_clicks (run_calls calls self0) = (Ok tt, fresh gt ignore_label) ∧
  new gt None ignore_label = Ok (fresh gt ignore_label).
Proof.
  intros Hnew. split.
  - by rewrite reset_clicks_eq, (cleared_run_calls gt init_clicks ignore_label).
  - unfold new. by rewrite __init___eq.
Qed.

Lemma reset_clicks_gives_fresh_witness :
  reset_clicks (run_calls [MakeNextClick (all22 false); AddClick (mk_Click false (1, 1)%Z)]
                          clicker22) = (Ok tt, fresh (Some ones22) (-1)) ∧
  new (Some ones22) None (-1) = Ok (fresh (Some ones22) (-1)).
Proof.
  apply (reset_clicks_gives_fresh (Some ones22) None (-1) clicker22). reflexivity.
Defined.

(** X5: [set_state(state)] does to a Clicker, whatever its history, what
    the constructor does with [init_clicks=state]: the same outcome and the
    same resulting object. *)
Theorem set_state_is_reconstruction gt init_clicks ignore_label self0 calls state :
  new gt init_clicks ignore_label = Ok self0 →
  set_state state (run_calls calls self0) = __init__ gt (Some state) ignore_label blank.
Proof.
  intros Hnew.
  by rewrite set_state_eq, __init___eq, (cleared_run_calls gt init_clicks ignore_label).
Qed.

Lemma set_state_is_reconstruction_witness :
  set_state five_clicks
      (run_calls [MakeNextClick (all22 false); RemoveLastClick; RemoveLastClick] clicker22) =
    __init__ (Some ones22) (Some five_clicks) (-1) blank.
Proof.
  apply (set_state_is_reconstruction (Some ones22) None (-1) clicker22). reflexivity.
Defined.

(** The clicks of a reachable, marked state replayed on the cleared object
    give the object back. *)
Lemma replay_restores self :
  consistent self → clicks_marked self →
  for_each (clicks_list self) add_click (cleared self) = (Ok tt, self).
Proof.
  intros Hc Hcover.
  pose proof (reset_clicks_consistent self Hc) as Hc0. rewrite reset_clicks_eq in Hc0.
  cbn [snd] in Hc0.
  destruct (for_each_add_click_Ok (clicks_list self) (cleared self))
    as (self' & Hrun & Hc' & Hcover' & Hg' & Hni' & Hl'); [done| | |].
  { intros nc click _ Hin. by apply elem_of_nil in Hin. }
  { intros nc0 click Hnc0 Hin. fields in Hnc0.
    destruct Hc as (Hshape & Hnone & _).
    destruct (gt_mask self) as [g|] eqn:Hg.
    - destruct (Hshape g Hg) as (ni & nc & Hni & Hnc & Hsni & Hsnc & Hwf).
      injection Hnc0 as <-.
      destruct (Hcover nc click Hnc Hin) as (y & x & Hpx & _).
      rewrite (pixel_shape _ nc) by done. eauto.
    - rewrite Hnone in Hnc0; done. }
  rewrite Hrun. f_equal. fields in Hg'. fields in Hni'. fields in Hl'.
  rewrite app_nil_l in Hl'.
  pose proof Hc as (Hshape & Hnone & Hpos & Hneg & _).
  pose proof Hc' as (Hshape' & Hnone' & Hpos' & Hneg' & _).
  apply Clicker_ext; [done|done| |congruence|congruence|done].
  destruct (gt_mask self) as [g|] eqn:Hg.
  - destruct (Hshape g Hg) as (ni & nc & Hni & Hnc & Hsni & Hsnc & Hwf).
    destruct (Hshape' g Hg') as (ni' & nc' & _ & Hnc' & _ & Hsnc' & Hwf').
    rewrite Hnc, Hnc'. f_equal. apply mask_ext; [done|done|congruence|].
    intros y x. rewrite (marks_exact self' nc'), (marks_exact self nc) by done.
    rewrite Hl'. rewrite (click_pixels_shape nc' nc) by congruence. done.
  - rewrite Hnone, Hnone' by done. done.
Qed.

(** X6: a snapshot taken with [get_state] from a Clicker whose clicks are
    all marked restores, with [set_state], the whole state of that Clicker
    into any other Clicker that holds the same ground truth. *)
Theorem snapshot_restores_into_other self other :
  reachable self → reachable other → same_ground_truth self other →
  clicks_marked self →
  ∃ state, get_state self = (Ok state, self) ∧ set_state state other = (Ok tt, self).
Proof.
  intros Hc%reachable_consistent Ho%reachable_consistent [Hg Hni] Hcover.
  exists (clicks_list self). split; [done|].
  rewrite set_state_eq.
  assert (cleared other = cleared self) as ->.
  { apply Clicker_ext; fields; try done.
    rewrite <- Hg. destruct (gt_mask self) as [g|] eqn:Hgs; [done|].
    destruct Hc as (_ & Hnone & _), Ho as (_ & Hnone' & _).
    rewrite Hnone, Hnone' by congruence. done. }
  by apply replay_restores.
Qed.

Lemma snapshot_restores_into_other_witness :
  ∃ state, get_state clicker22_clicked = (Ok state, clicker22_clicked) ∧
           set_state state clicker22_undone = (Ok tt, clicker22_clicked).
Proof.
  assert (reachable clicker22) as Hr
    by exact (reachable_new (Some ones22) None (-1) clicker22 eq_refl).
  apply (snapshot_restores_into_other clicker22_clicked clicker22_undone).
  - exact (reachable_call (MakeNextClick (all22 false)) clicker22 (Ok tt) _ Hr eq_refl).
  - exact (run_calls_reachable
             [AddClick (mk_Click true (0, 0)%Z); AddClick (mk_Click true (0, 0)%Z);
              RemoveLastClick] clicker22 Hr).
  - split; reflexivity.
  - intros nc click Hnc Hin. injection Hnc as <-.
    exists 0, 0. apply list_elem_of_singleton in Hin as ->. split; reflexivity.
Defined.

(** ** Errors of the click history *)






Lemma norm_index_mod n i :
  (- Z.of_nat n ≤ i < Z.of_nat n)%Z →
  Np.norm_index n i = Some (Z.to_nat (i `mod` Z.of_nat n)).
Proof.
  intros Hi. unfold Np.norm_index. destruct (decide (0 ≤ i < Z.of_nat n)%Z) as [Hnn|Hneg].
  - by rewrite Z.mod_small.
  - rewrite decide_True by lia. do 2 f_equal.
    rewrite <- (Z.mod_add i 1 (Z.of_nat n)) by lia. rewrite Z.mod_small; lia.
Qed.

(** X9: a subscript between [-H] and [-1] (or [-W] and [-1]) counts from the
    end: [add_click] with coordinates in [[-H, H) x [-W, W)] returns, marks
    the pixel [(row mod H, col mod W)] as clicked and leaves every other
    pixel of the map as it was. *)
Theorem add_click_wraps_negative click self g nc :
  gt_mask self = Some g → not_clicked_map self = Some nc → Np.wf nc →
  (- Z.of_nat (Np.nrows nc) ≤ (coords click).1 < Z.of_nat (Np.nrows nc))%Z →
  (- Z.of_nat (Np.ncols nc) ≤ (coords click).2 < Z.of_nat (Np.ncols nc))%Z →
  ∃ self' nc',
    add_click click self = (Ok tt, self') ∧ not_clicked_map self' = Some nc' ∧
    let y := Z.to_nat ((coords click).1 `mod` Z.of_nat (Np.nrows nc)) in
    let x := Z.to_nat ((coords click).2 `mod` Z.of_nat (Np.ncols nc)) in
    Np.item nc' y x = Some false ∧
    ∀ y' x', (y', x') ≠ (y, x) → Np.item nc' y' x' = Np.item nc y' x'.
Proof.
  intros Hg Hnc Hwf Hy Hx.
  assert (Np.pixel nc (coords click) =
            Some (Z.to_nat ((coords click).1 `mod` Z.of_nat (Np.nrows nc)),
                  Z.to_nat ((coords click).2 `mod` Z.of_nat (Np.ncols nc)))) as Hpx.
  { unfold Np.pixel. by rewrite !norm_index_mod. }
  pose proof (pixel_lt _ _ _ _ Hpx) as [Hlty Hltx].
  eexists _, _. split; [by apply (add_click_in_bounds _ _ g nc _ _ Hg Hnc Hpx)|].
  split; [by fields|]. cbn zeta. split.
  - by apply item_stored_eq.
  - intros y' x' Hne. by apply item_stored_ne.
Qed.

Lemma add_click_wraps_negative_witness :
  ∃ self' nc',
    add_click (mk_Click false (-1, -2)%Z) clicker22 = (Ok tt, self') ∧
    not_clicked_map self' = Some nc' ∧
    let y := Z.to_nat ((-1) `mod` Z.of_nat (Np.nrows (all22 true))) in
    let x := Z.to_nat ((-2) `mod` Z.of_nat (Np.ncols (all22 true))) in
    Np.item nc' y x = Some false ∧
    ∀ y' x', (y', x') ≠ (y, x) → Np.item nc' y' x' = Np.item (all22 true) y' x'.
Proof.
  apply (add_click_wraps_negative (mk_Click false (-1, -2)%Z) clicker22 (all22 true)
           (all22 true)); [reflexivity|reflexivity|reflexivity|simpl; lia|simpl; lia].
Defined.



(** X11: a negative limit is no error: [get_clicks(-k)] returns the click
    list without its last [k] clicks (nothing when [k] exceeds the length)
    and leaves the object unchanged. *)
Theorem get_clicks_negative_limit self k :
  (0 < k)%Z →
  ∃ clicks,
    get_clicks (Some (- k)%Z) self = (Ok clicks, self) ∧
    clicks `prefix_of` clicks_list self ∧
    length clicks = length (clicks_list self) - Z.to_nat k.
Proof.
  intros Hk. unfold get_clicks, read. rewrite decide_False by lia.
  eexists. split; [done|]. rewrite Z.opp_involutive. split.
  - apply prefix_take.
  - rewrite length_take. lia.
Qed.

Lemma get_clicks_negative_limit_witness :
  ∃ clicks,
    get_clicks (Some (- 2)%Z) clicker_five = (Ok clicks, clicker_five) ∧
    clicks `prefix_of` clicks_list clicker_five ∧
    length clicks = length (clicks_list clicker_five) - Z.to_nat 2.
Proof. apply (get_clicks_negative_limit clicker_five 2). lia. Defined.

(** ** The distance maps, pixel by pixel *)

Lemma item_total_of_item `{Inhabited A} (m : Np.ndarray A) y x v :
  Np.item m y x = Some v → Np.item_total m y x = v.
Proof.
  intros Hv. pose proof (item_Some_lt _ _ _ _ Hv) as [Hy Hx].
  rewrite item_lookup in Hv by done. by apply list_lookup_total_correct.
Qed.

Lemma bitem_of_item `{Inhabited A} (m : Np.ndarray A) y x v :
  Np.item m y x = Some v → Np.bitem m y x = v.
Proof.
  intros Hv. pose proof (item_Some_lt _ _ _ _ Hv) as [Hy Hx]. unfold Np.bitem.
  assert ((if decide (Np.nrows m = 1) then 0 else y) = y) as -> by (case_decide; lia).
  assert ((if decide (Np.ncols m = 1) then 0 else x) = x) as -> by (case_decide; lia).
  by apply item_total_of_item.
Qed.

Lemma item_map {A B} (f : A → B) (m : Np.ndarray A) y x v :
  Np.item m y x = Some v → Np.item (Np.map f m) y x = Some (f v).
Proof.
  unfold Np.item. simpl. case_decide; [|done]. intros Hv.
  by rewrite list_lookup_fmap, Hv.
Qed.

Lemma item_and_mask a b y x va vb :
  Np.item a y x = Some va → Np.item b y x = Some vb →
  Np.item (and_mask a b) y x = Some (va && vb).
Proof.
  intros Ha Hb. pose proof (item_Some_lt _ _ _ _ Ha) as [Hy Hx].
  unfold and_mask. rewrite item_tabulate by done.
  by rewrite (bitem_of_item a y x va), (bitem_of_item b y x vb).
Qed.

Lemma elem_of_pixels h w y x : y < h → x < w → (y, x) ∈ pixels h w.
Proof.
  intros Hy Hx. unfold pixels. apply list_elem_of_fmap. exists (y * w + x). split.
  - by rewrite flat_div, flat_mod.
  - apply elem_of_seq. split; [lia|]. simpl. by apply flat_lt.
Qed.

Lemma pad1_item m y x b :
  Np.item m y x = Some b → Np.item (Np.pad1 m) (y + 1) (x + 1) = Some b.
Proof.
  intros Hb. pose proof (item_Some_lt _ _ _ _ Hb) as [Hy Hx].
  unfold Np.pad1. rewrite item_tabulate by lia. rewrite decide_True by lia.
  rewrite !Nat.add_sub. by rewrite (item_total_of_item m y x b).
Qed.

(** The frame that [np.pad] adds is background. *)
Lemma pad1_frame m y x :
  y < Np.nrows m + 2 → x < Np.ncols m + 2 →
  y = 0 ∨ x = 0 ∨ y = Np.nrows m + 1 ∨ x = Np.ncols m + 1 →
  Np.item (Np.pad1 m) y x = Some false.
Proof.
  intros Hy Hx Hframe. unfold Np.pad1. rewrite item_tabulate by lia.
  by rewrite decide_False by lia.
Qed.

Lemma elem_of_zero_pixels m y x :
  (y, x) ∈ zero_pixels m ↔
  (y, x) ∈ pixels (Np.nrows m) (Np.ncols m) ∧ Np.item_total m y x = false.
Proof. unfold zero_pixels. rewrite list_elem_of_filter. simpl. tauto. Qed.

Lemma sq_dist_ne p q : p ≠ q → (1 ≤ sq_dist p q)%Z.
Proof.
  destruct p as [py px], q as [qy qx]. unfold sq_dist. simpl. intros Hne.
  assert (py ≠ qy ∨ px ≠ qx) as [?|?] by (destruct (decide (py = qy)); [right|left]; congruence);
    nia.
Qed.

Lemma nearest_sq_lower d p qs :
  qs ≠ [] → (∀ q, q ∈ qs → (d ≤ sq_dist p q)%Z) → (d ≤ nearest_sq p qs)%Z.
Proof.
  destruct qs as [|q qs]; [done|]. intros _ Hall. simpl.
  assert (d ≤ sq_dist p q)%Z as Hq by (apply Hall; left).
  assert (∀ q', q' ∈ qs → (d ≤ sq_dist p q')%Z) as Hqs by (intros; apply Hall; by right).
  clear Hall. revert Hq. generalize (sq_dist p q).
  induction qs as [|q' qs IH]; intros d0 Hd0; simpl; [done|].
  apply IH.
  - intros q'' Hin. apply Hqs. by right.
  - assert (d ≤ sq_dist p q')%Z by (apply Hqs; left). lia.
Qed.

Lemma foldl_min_le p qs : ∀ d0,
  (foldl (λ d q', Z.min d (sq_dist p q')) d0 qs ≤ d0)%Z ∧
  ∀ q, q ∈ qs → (foldl (λ d q', Z.min d (sq_dist p q')) d0 qs ≤ sq_dist p q)%Z.
Proof.
  induction qs as [|q' qs IH]; intros d0; simpl.
  - split; [lia|]. by intros q ?%elem_of_nil.
  - destruct (IH (Z.min d0 (sq_dist p q'))) as [Hle Hin]. split; [lia|].
    intros q [->|Hq]%elem_of_cons; [lia|by apply Hin].
Qed.

Lemma nearest_sq_upper p q qs : q ∈ qs → (nearest_sq p qs ≤ sq_dist p q)%Z.
Proof.
  destruct qs as [|q0 qs]; [by intros ?%elem_of_nil|]. simpl.
  destruct (foldl_min_le p qs (sq_dist p q0)) as [Hle Hin].
  intros [->|Hq]%elem_of_cons; [done|by apply Hin].
Qed.

Lemma item_total_tabulate `{Inhabited A} h w (f : nat → nat → A) y x :
  y < h → x < w → Np.item_total (Np.tabulate h w f) y x = f y x.
Proof. intros Hy Hx. apply item_total_of_item. by apply item_tabulate. Qed.

Lemma depth_item m y x b :
  Np.item m y x = Some b →
  Np.item (depth m) y x =
    Some (if b then nearest_sq (y + 1, x + 1) (zero_pixels (Np.pad1 m)) else 0%Z).
Proof.
  intros Hb. pose proof (item_Some_lt _ _ _ _ Hb) as [Hy Hx].
  unfold depth, Np.crop1, distance_transform_edt_sq.
  cbn [Np.nrows Np.ncols Np.tabulate Np.pad1].
  rewrite item_tabulate by lia. rewrite item_total_tabulate by lia.
  by rewrite (item_total_of_item (Np.pad1 m) (y + 1) (x + 1) b) by (by apply pad1_item).
Qed.

(** An error pixel is at distance at least 1 from the background. *)
Lemma nearest_sq_foreground m y x :
  Np.item m y x = Some true →
  (1 ≤ nearest_sq (y + 1, x + 1)%nat (zero_pixels (Np.pad1 m)))%Z.
Proof.
  intros Hb. apply nearest_sq_lower.
  - assert ((0, 0) ∈ zero_pixels (Np.pad1 m)) as Hin.
    { apply elem_of_zero_pixels. split.
      - apply elem_of_pixels; simpl; lia.
      - apply item_total_of_item, pad1_frame; lia. }
    intros Hnil. rewrite Hnil in Hin. by apply elem_of_nil in Hin.
  - intros [qy qx] [_ Hq]%elem_of_zero_pixels. apply sq_dist_ne. intros [= <- <-].
    rewrite (item_total_of_item (Np.pad1 m) (y + 1) (x + 1) true) in Hq
      by (by apply pad1_item). done.
Qed.

(** An error pixel on the border of the image is at distance exactly 1:
    the frame added by the padding is background. *)
Lemma nearest_sq_border m y x :
  Np.item m y x = Some true →
  y = 0 ∨ x = 0 ∨ y + 1 = Np.nrows m ∨ x + 1 = Np.ncols m →
  nearest_sq (y + 1, x + 1) (zero_pixels (Np.pad1 m)) = 1%Z.
Proof.
  intros Hb Hborder. pose proof (item_Some_lt _ _ _ _ Hb) as [Hy Hx].
  pose proof (nearest_sq_foreground m y x Hb) as Hge.
  assert (∃ qy qx, (qy, qx) ∈ zero_pixels (Np.pad1 m) ∧
            sq_dist (y + 1, x + 1) (qy, qx) = 1%Z) as (qy & qx & Hin & Hd).
  { assert (∀ qy qx, qy < Np.nrows m + 2 → qx < Np.ncols m + 2 →
              qy = 0 ∨ qx = 0 ∨ qy = Np.nrows m + 1 ∨ qx = Np.ncols m + 1 →
              (qy, qx) ∈ zero_pixels (Np.pad1 m)) as Hframe.
    { intros qy qx Hqy Hqx Hf. apply elem_of_zero_pixels. split.
      - by apply elem_of_pixels.
      - by apply item_total_of_item, pad1_frame. }
    destruct Hborder as [->|[->|[Hlast|Hlast]]].
    - exists 0, (x + 1). split; [apply Hframe; lia|]. unfold sq_dist. simpl. lia.
    - exists (y + 1), 0. split; [apply Hframe; lia|]. unfold sq_dist. simpl. lia.
    - exists (y + 2), (x + 1). split; [apply Hframe; lia|]. unfold sq_dist. simpl. lia.
    - exists (y + 1), (x + 2). split; [apply Hframe; lia|]. unfold sq_dist. simpl. lia. }
  pose proof (nearest_sq_upper (y + 1, x + 1) (qy, qx) _ Hin). lia.
Qed.

Lemma masked_depth_item m nc y x b bc :
  Np.item m y x = Some b → Np.item nc y x = Some bc →
  Np.item (masked_depth m nc) y x =
    Some (if bc then
            if b then nearest_sq (y + 1, x + 1) (zero_pixels (Np.pad1 m)) else 0%Z
          else 0%Z).
Proof.
  intros Hb Hbc. pose proof (depth_item m y x b Hb) as Hd.
  pose proof (item_Some_lt _ _ _ _ Hd) as [Hy Hx].
  unfold masked_depth. rewrite item_tabulate by done.
  by rewrite (bitem_of_item nc y x bc), (bitem_of_item (depth m) y x _ Hd).
Qed.

(** What [masked_distances] computes when all the masks have one shape. *)
Lemma masked_distances_eq pred self g ni nc :
  gt_mask self = Some g → not_ignore_mask self = Some ni →
  not_clicked_map self = Some nc →
  Np.shape ni = Np.shape g → Np.shape nc = Np.shape g → Np.shape pred = Np.shape g →
  masked_distances pred self =
    Ok (masked_depth (and_mask (and_mask g (Np.logical_not pred)) ni) nc,
        masked_depth (and_mask (and_mask (Np.logical_not g) pred) ni) nc).
Proof.
  intros Hg Hni Hnc Hsni Hsnc Hsp. unfold masked_distances.
  rewrite Hg, Hni, Hnc. cbn [mbind outcome_bind obind attr].
  unfold Np.logical_and.
  rewrite (zip_with_same_shape andb g) by solve_shape.
  cbn [mbind outcome_bind obind].
  rewrite (zip_with_same_shape andb _ ni) by solve_shape.
  cbn [mbind outcome_bind obind].
  rewrite (zip_with_same_shape andb (Np.logical_not g) pred) by solve_shape.
  cbn [mbind outcome_bind obind].
  rewrite (zip_with_same_shape andb _ ni) by solve_shape.
  cbn [mbind outcome_bind obind].
  unfold Np.mul_mask.
  rewrite !zip_with_same_shape by solve_shape.
  reflexivity.
Qed.

Lemma built_on_intro lbl init_clicks ignore_label self0 calls pred :
  new (Some lbl) init_clicks ignore_label = Ok self0 →
  Np.wf lbl → Np.wf pred → Np.shape pred = Np.shape lbl →
  ∃ nc, built_on lbl ignore_label pred (run_calls calls self0) nc ∧
        consistent (run_calls calls self0).
Proof.
  intros Hnew Hwl Hwp Hsp.
  pose proof (run_calls_same_ground_truth _ calls self0
                (new_same_ground_truth _ _ _ _ Hnew)) as [Hg Hni].
  assert (consistent (run_calls calls self0)) as Hc.
  { apply reachable_consistent, run_calls_reachable. by eapply reachable_new. }
  pose proof Hc as (Hshape & _).
  destruct (Hshape (foreground lbl)) as (ni & nc & _ & Hnc & _ & Hsnc & Hwf); [done|].
  exists nc. split; [|done]. split_and!; done.
Qed.

(** The two masked distance maps at a pixel: non-negative, and positive
    exactly on the error pixels of their kind that have not been clicked. *)
Lemma built_on_pixel lbl ignore_label pred self nc fn fp y x :
  built_on lbl ignore_label pred self nc →
  masked_distances pred self = Ok (fn, fp) →
  y < Np.nrows lbl → x < Np.ncols lbl →
  ∃ v bp bc vfn vfp,
    Np.item lbl y x = Some v ∧ Np.item pred y x = Some bp ∧ Np.item nc y x = Some bc ∧
    Np.item fn y x = Some vfn ∧ Np.item fp y x = Some vfp ∧
    (0 ≤ vfn)%Z ∧ (0 ≤ vfp)%Z ∧
    ((0 < vfn)%Z ↔ v = 1%Z ∧ v ≠ ignore_label ∧ bp = false ∧ bc = true) ∧
    ((0 < vfp)%Z ↔ v ≠ 1%Z ∧ v ≠ ignore_label ∧ bp = true ∧ bc = true) ∧
    (y = 0 ∨ x = 0 ∨ y + 1 = Np.nrows lbl ∨ x + 1 = Np.ncols lbl →
       (vfn ≤ 1)%Z ∧ (vfp ≤ 1)%Z).
Proof.
  intros (Hg & Hni & Hnc & Hsnc & Hwnc & Hwl & Hwp & Hsp) Hmd Hy Hx.
  injection Hsnc as Hncr Hncc. injection Hsp as Hpr Hpc.
  destruct (item_wf_is_Some lbl y x Hwl Hy Hx) as [v Hv].
  destruct (item_wf_is_Some pred y x Hwp) as [bp Hbp]; [lia..|].
  destruct (item_wf_is_Some nc y x Hwnc) as [bc Hbc]; [lia..|].
  rewrite (masked_distances_eq pred self (foreground lbl) (not_ignored lbl ignore_label) nc)
    in Hmd by (done || (unfold Np.shape, foreground, not_ignored; simpl; congruence)).
  injection Hmd as <- <-.
  pose proof (item_map (λ v, bool_decide (v = 1%Z)) lbl y x v Hv) as Hgi.
  pose proof (item_map (λ v, bool_decide (v ≠ ignore_label)) lbl y x v Hv) as Hnii.
  pose proof (item_map negb pred y x bp Hbp) as Hnp.
  pose proof (item_map negb _ y x _ Hgi) as Hng.
  pose proof (item_and_mask _ _ y x _ _ (item_and_mask _ _ y x _ _ Hgi Hnp) Hnii) as Hfnm.
  pose proof (item_and_mask _ _ y x _ _ (item_and_mask _ _ y x _ _ Hng Hbp) Hnii) as Hfpm.
  pose proof (masked_depth_item _ nc y x _ bc Hfnm Hbc) as Hfn.
  pose proof (masked_depth_item _ nc y x _ bc Hfpm Hbc) as Hfp.
  eexists v, bp, bc, _, _. split_and!; [done|done|done|exact Hfn|exact Hfp|..].
  - destruct bc; [|lia].
    destruct (bool_decide (v = 1%Z) && negb bp && bool_decide (v ≠ ignore_label));
      [apply nearest_sq_nonneg|lia].
  - destruct bc; [|lia].
    destruct (negb (bool_decide (v = 1%Z)) && bp && bool_decide (v ≠ ignore_label));
      [apply nearest_sq_nonneg|lia].
  - destruct bc; [|split; [lia|by intros (_ & _ & _ & ?)]].
    destruct (bool_decide (v = 1%Z) && negb bp && bool_decide (v ≠ ignore_label)) eqn:Hb.
    + pose proof (nearest_sq_foreground _ y x Hfnm) as Hge.
      apply andb_prop in Hb as [[H1%bool_decide_eq_true H2%negb_true_iff]%andb_prop
                                  H3%bool_decide_eq_true].
      split; [done|intros; lia].
    + split; [lia|]. intros (H1 & H2 & -> & _).
      rewrite !bool_decide_eq_true_2 in Hb by done. done.
  - destruct bc; [|split; [lia|by intros (_ & _ & _ & ?)]].
    destruct (negb (bool_decide (v = 1%Z)) && bp && bool_decide (v ≠ ignore_label)) eqn:Hb.
    + pose proof (nearest_sq_foreground _ y x Hfpm) as Hge.
      apply andb_prop in Hb as [[H1%negb_true_iff%bool_decide_eq_false H2]%andb_prop
                                  H3%bool_decide_eq_true].
      split; [done|intros; lia].
    + split; [lia|]. intros (H1 & H2 & -> & _).
      rewrite bool_decide_eq_false_2, bool_decide_eq_true_2 in Hb by done. done.
  - intros Hborder. split.
    + destruct bc; [|lia].
      destruct (bool_decide (v = 1%Z) && negb bp && bool_decide (v ≠ ignore_label))
        eqn:Hb; [|lia].
      rewrite (nearest_sq_border _ y x Hfnm); [lia|].
      cbn [and_mask Np.nrows Np.ncols Np.tabulate foreground Np.map]. lia.
    + destruct bc; [|lia].
      destruct (negb (bool_decide (v = 1%Z)) && bp && bool_decide (v ≠ ignore_label))
        eqn:Hb; [|lia].
      rewrite (nearest_sq_border _ y x Hfpm); [lia|].
      cbn [and_mask Np.nrows Np.ncols Np.tabulate foreground Np.map Np.logical_not]. lia.
Qed.

Lemma max_nonneg m v : nonneg m → Np.max m = Ok v → (0 ≤ v)%Z.
Proof.
  intros Hnn [Hin _]%max_Ok_iff. by eapply (proj1 (Forall_forall _ _) Hnn).
Qed.

(** The selection on a Clicker built on a non-empty label map. *)
Lemma built_on_selects lbl ignore_label pred self nc :
  built_on lbl ignore_label pred self nc → masks_shaped self →
  1 ≤ Np.nrows lbl → 1 ≤ Np.ncols lbl →
  ∃ fn fp fn_max fp_max y x,
    masked_distances pred self = Ok (fn, fp) ∧
    is_maximum fn fn_max ∧ is_maximum fp fp_max ∧
    (0 ≤ fn_max)%Z ∧ (0 ≤ fp_max)%Z ∧
    y < Np.nrows lbl ∧ x < Np.ncols lbl ∧
    Np.item (if (fn_max >? fp_max)%Z then fn else fp) y x =
      Some (if (fn_max >? fp_max)%Z then fn_max else fp_max) ∧
    _get_click pred self = Ok (mk_Click (fn_max >? fp_max)%Z (Z.of_nat y, Z.of_nat x)) ∧
    make_next_click pred self =
      (Ok tt, set_not_clicked_map (stored nc y x false)
                (counted (mk_Click (fn_max >? fp_max)%Z (Z.of_nat y, Z.of_nat x)) self)).
Proof.
  intros (Hg & Hni & Hnc & Hsnc & Hwnc & Hwl & Hwp & Hsp) Hshape Hh Hw.
  destruct (make_next_click_selects pred self (foreground lbl))
    as (nc' & fn & fp & fn_max & fp_max & y & x & Hnc' & _ & _ & Hmd & Hwfn & Hwfp &
        Hnfn & Hnfp & _ & _ & Hfn_max & Hfp_max & Hfirst & Hy & Hx & Hget & Hnext);
    [done..|].
  rewrite Hnc in Hnc'. injection Hnc' as <-.
  exists fn, fp, fn_max, fp_max, y, x.
  split_and!; [done|by apply max_is_maximum|by apply max_is_maximum
              |exact (max_nonneg fn fn_max Hnfn Hfn_max)
              |exact (max_nonneg fp fp_max Hnfp Hfp_max)|done|done| |done|done].
  destruct (fn_max >? fp_max)%Z; apply Hfirst.
Qed.

(** X12: a positive click of [_get_click] sits on a pixel whose label is 1
    and not the ignore label, where the prediction is false, and that has
    not been clicked before. *)
Theorem positive_click_on_false_negative
    lbl init_clicks ignore_label self0 calls pred click :
  new (Some lbl) init_clicks ignore_label = Ok self0 →
  Np.wf lbl → Np.wf pred → Np.shape pred = Np.shape lbl →
  _get_click pred (run_calls calls self0) = Ok click → is_positive click = true →
  ∃ y x nc,
    coords click = (Z.of_nat y, Z.of_nat x) ∧
    false_negative_at lbl ignore_label pred y x ∧
    not_clicked_map (run_calls calls self0) = Some nc ∧ Np.item nc y x = Some true.
Proof.
  intros Hnew Hwl Hwp Hsp Hget Hpos.
  destruct (built_on_intro lbl init_clicks ignore_label self0 calls pred)
    as (nc & Hbuilt & Hshape & _); [done..|].
  destruct (decide (Np.nrows lbl = 0 ∨ Np.ncols lbl = 0)) as [Hz|Hnz].
  { rewrite (_get_click_empty pred _ (foreground lbl)) in Hget; [done..|apply Hbuilt|done|done]. }
  destruct (built_on_selects lbl ignore_label pred _ nc Hbuilt Hshape)
    as (fn & fp & fn_max & fp_max & y & x & Hmd & _ & _ & _ & Hfp0 & Hy & Hx & Hitem &
        Hget' & _); [lia..|].
  rewrite Hget' in Hget. injection Hget as <-. cbn [is_positive coords] in *.
  rewrite Hpos in Hitem. apply Z.gtb_gt in Hpos.
  destruct (built_on_pixel lbl ignore_label pred _ nc fn fp y x Hbuilt Hmd Hy Hx)
    as (v & bp & bc & vfn & vfp & Hv & Hbp & Hbc & Hfn & _ & _ & _ & Hiff & _).
  rewrite Hfn in Hitem. injection Hitem as ->.
  destruct (proj1 Hiff) as (-> & Hign & -> & ->); [lia|].
  exists y, x, nc. split_and!; [done| |apply Hbuilt|done].
  exists 1%Z. done.
Qed.

Lemma positive_click_on_false_negative_witness :
  ∃ y x nc,
    coords (mk_Click true (4, 4)%Z) = (Z.of_nat y, Z.of_nat x) ∧
    false_negative_at square10 (-1) none10 y x ∧
    not_clicked_map (run_calls [] clicker_square) = Some nc ∧
    Np.item nc y x = Some true.
Proof.
  apply (positive_click_on_false_negative square10 None (-1) clicker_square [] none10);
    [reflexivity|reflexivity|reflexivity|reflexivity|vm_compute; reflexivity|reflexivity].
Defined.

Lemma built_on_shape lbl ignore_label pred self nc fn fp :
  built_on lbl ignore_label pred self nc →
  masked_distances pred self = Ok (fn, fp) →
  Np.shape fn = Np.shape lbl ∧ Np.shape fp = Np.shape lbl.
Proof.
  intros (Hg & Hni & Hnc & Hsnc & Hwnc & Hwl & Hwp & Hsp) Hmd.
  destruct (masked_distances_same_shape pred self (foreground lbl)
              (not_ignored lbl ignore_label) nc Hg Hni Hnc)
    as (fn' & fp' & Hmd' & Hsfn & Hsfp & _); [done|done|done|done|].
  rewrite Hmd in Hmd'. injection Hmd' as <- <-. done.
Qed.

Lemma is_maximum_upper m v y x w : is_maximum m v → Np.item m y x = Some w → (w ≤ v)%Z.
Proof. intros [_ Hub] Hw. by eapply Hub. Qed.

(** While an unclicked error pixel exists, the selected pixel is an
    unclicked error pixel of the polarity of the click. *)
Lemma built_on_selects_error lbl ignore_label pred self nc y0 x0 :
  built_on lbl ignore_label pred self nc → masks_shaped self →
  Np.item nc y0 x0 = Some true →
  false_negative_at lbl ignore_label pred y0 x0 ∨
    false_positive_at lbl ignore_label pred y0 x0 →
  ∃ click y x,
    _get_click pred self = Ok click ∧
    coords click = (Z.of_nat y, Z.of_nat x) ∧
    Np.pixel nc (coords click) = Some (y, x) ∧
    Np.item nc y x = Some true ∧
    (if is_positive click then false_negative_at lbl ignore_label pred y x
     else false_positive_at lbl ignore_label pred y x) ∧
    make_next_click pred self =
      (Ok tt, set_not_clicked_map (stored nc y x false) (counted click self)).
Proof.
  intros Hbuilt Hshape Hnc0 Herr.
  pose proof Hbuilt as (_ & _ & _ & Hsnc & _). injection Hsnc as Hncr Hncc.
  pose proof (item_Some_lt _ _ _ _ Hnc0) as [Hy0 Hx0].
  destruct (built_on_selects lbl ignore_label pred self nc Hbuilt Hshape)
    as (fn & fp & fn_max & fp_max & y & x & Hmd & Hfn_max & Hfp_max & Hfn0 & Hfp0 &
        Hy & Hx & Hitem & Hget & Hnext); [lia..|].
  destruct (built_on_pixel lbl ignore_label pred self nc fn fp y0 x0 Hbuilt Hmd)
    as (v0 & bp0 & bc0 & vfn0 & vfp0 & Hv0 & Hbp0 & Hbc0 & Hfn0' & Hfp0' & _ & _ &
        Hiff_fn0 & Hiff_fp0 & _); [lia..|].
  rewrite Hnc0 in Hbc0. injection Hbc0 as <-.
  pose proof (is_maximum_upper fn fn_max y0 x0 vfn0 Hfn_max Hfn0') as Hle_fn.
  pose proof (is_maximum_upper fp fp_max y0 x0 vfp0 Hfp_max Hfp0') as Hle_fp.
  assert (0 < fn_max ∨ 0 < fp_max)%Z as Hsome.
  { destruct Herr as [(v & Hv & -> & Hign & Hp)|(v & Hv & Hne & Hign & Hp)];
      rewrite Hv0 in Hv; injection Hv as ->; rewrite Hbp0 in Hp; injection Hp as ->.
    - left. assert (0 < vfn0)%Z by (by apply Hiff_fn0). lia.
    - right. assert (0 < vfp0)%Z by (by apply Hiff_fp0). lia. }
  destruct (built_on_pixel lbl ignore_label pred self nc fn fp y x Hbuilt Hmd Hy Hx)
    as (v & bp & bc & vfn & vfp & Hv & Hbp & Hbc & Hfn & Hfp & _ & _ &
        Hiff_fn & Hiff_fp & _).
  eexists _, y, x. split; [exact Hget|]. cbn [coords is_positive].
  split; [done|]. split; [apply pixel_of_nat; lia|].
  destruct (fn_max >? fp_max)%Z eqn:Hgt.
  - apply Z.gtb_gt in Hgt. rewrite Hfn in Hitem. injection Hitem as ->.
    destruct (proj1 Hiff_fn) as (-> & Hign & -> & ->); [lia|].
    split_and!; [done| |done]. by exists 1%Z.
  - rewrite Z.gtb_ltb in Hgt. apply Z.ltb_ge in Hgt.
    rewrite Hfp in Hitem. injection Hitem as ->.
    destruct (proj1 Hiff_fp) as (Hne & Hign & -> & ->); [lia|].
    split_and!; [done| |done]. by exists v.
Qed.

(** X13: while some pixel that has not been clicked is a false negative or
    a false positive, [make_next_click] returns and the click it appends
    sits on a pixel that has not been clicked and is an error of the
    polarity of the click: a false negative for a positive click, a false
    positive for a negative one. *)
Theorem click_lands_on_unclicked_error
    lbl init_clicks ignore_label self0 calls pred nc y0 x0 :
  new (Some lbl) init_clicks ignore_label = Ok self0 →
  Np.wf lbl → Np.wf pred → Np.shape pred = Np.shape lbl →
  not_clicked_map (run_calls calls self0) = Some nc → Np.item nc y0 x0 = Some true →
  false_negative_at lbl ignore_label pred y0 x0 ∨
    false_positive_at lbl ignore_label pred y0 x0 →
  ∃ click self' y x,
    make_next_click pred (run_calls calls self0) = (Ok tt, self') ∧
    clicks_list self' = clicks_list (run_calls calls self0) ++ [click] ∧
    coords click = (Z.of_nat y, Z.of_nat x) ∧
    Np.item nc y x = Some true ∧
    if is_positive click then false_negative_at lbl ignore_label pred y x
    else false_positive_at lbl ignore_label pred y x.
Proof.
  intros Hnew Hwl Hwp Hsp Hnc Hnc0 Herr.
  destruct (built_on_intro lbl init_clicks ignore_label self0 calls pred)
    as (nc' & Hbuilt & Hshape & _); [done..|].
  assert (nc' = nc) as -> by (destruct Hbuilt as (_ & _ & Hnc' & _); congruence).
  destruct (built_on_selects_error lbl ignore_label pred _ nc y0 x0 Hbuilt Hshape Hnc0 Herr)
    as (click & y & x & _ & Hxy & _ & Htrue & Hkind & Hnext).
  eexists click, _, y, x. split_and!; [exact Hnext|by fields|done|done|done].
Qed.

Lemma click_lands_on_unclicked_error_witness :
  ∃ click self' y x,
    make_next_click none10 (run_calls [] clicker_square) = (Ok tt, self') ∧
    clicks_list self' = clicks_list (run_calls [] clicker_square) ++ [click] ∧
    coords click = (Z.of_nat y, Z.of_nat x) ∧
    Np.item (Np.ones_like (foreground square10)) y x = Some true ∧
    if is_positive click then false_negative_at square10 (-1) none10 y x
    else false_positive_at square10 (-1) none10 y x.
Proof.
  apply (click_lands_on_unclicked_error square10 None (-1) clicker_square [] none10
           (Np.ones_like (foreground square10)) 3 3);
    [reflexivity|reflexivity|reflexivity|reflexivity|reflexivity|reflexivity|].
  left. exists 1%Z. split_and!; [reflexivity|reflexivity|lia|reflexivity].
Defined.

(** X14: when no pixel that is still unclicked is a false negative or a
    false positive (the prediction is right wherever it counts, or every
    error has been clicked), [make_next_click] on a non-empty mask appends
    a negative click at the origin. *)
Theorem no_error_left_clicks_origin lbl init_clicks ignore_label self0 calls pred nc :
  new (Some lbl) init_clicks ignore_label = Ok self0 →
  Np.wf lbl → Np.wf pred → Np.shape pred = Np.shape lbl →
  1 ≤ Np.nrows lbl → 1 ≤ Np.ncols lbl →
  not_clicked_map (run_calls calls self0) = Some nc →
  (∀ y x, Np.item nc y x = Some true →
     ¬ false_negative_at lbl ignore_label pred y x ∧
     ¬ false_positive_at lbl ignore_label pred y x) →
  ∃ self',
    make_next_click pred (run_calls calls self0) = (Ok tt, self') ∧
    clicks_list self' = clicks_list (run_calls calls self0) ++ [mk_Click false (0, 0)%Z].
Proof.
  intros Hnew Hwl Hwp Hsp Hh Hw Hnc Hnone.
  destruct (built_on_intro lbl init_clicks ignore_label self0 calls pred)
    as (nc' & Hbuilt & Hshape & _); [done..|].
  assert (nc' = nc) as -> by (destruct Hbuilt as (_ & _ & Hnc' & _); congruence).
  set (self := run_calls calls self0) in *.
  destruct (built_on_selects lbl ignore_label pred self nc Hbuilt Hshape)
    as (fn & fp & _ & _ & _ & _ & Hmd & _); [lia..|].
  pose proof Hbuilt as (Hg & _ & _ & Hsnc & _). injection Hsnc as Hncr Hncc.
  destruct (built_on_shape lbl ignore_label pred self nc fn fp Hbuilt Hmd) as [Hsfn Hsfp].
  injection Hsfn as Hfnr Hfnc. injection Hsfp as Hfpr Hfpc.
  assert (∀ y x, y < Np.nrows lbl → x < Np.ncols lbl →
            Np.item fn y x = Some 0%Z ∧ Np.item fp y x = Some 0%Z) as Hzero.
  { intros y x Hy Hx.
    destruct (built_on_pixel lbl ignore_label pred self nc fn fp y x Hbuilt Hmd Hy Hx)
      as (v & bp & bc & vfn & vfp & Hv & Hbp & Hbc & Hfn & Hfp & Hfn0 & Hfp0 &
          Hiff_fn & Hiff_fp & _).
    assert (¬ (0 < vfn)%Z) as Hnfn.
    { intros (-> & Hign & -> & ->)%Hiff_fn. destruct (Hnone y x Hbc) as [Hno _].
      apply Hno. by exists 1%Z. }
    assert (¬ (0 < vfp)%Z) as Hnfp.
    { intros (Hne & Hign & -> & ->)%Hiff_fp. destruct (Hnone y x Hbc) as [_ Hno].
      apply Hno. by exists v. }
    assert (vfn = 0%Z) as -> by lia. assert (vfp = 0%Z) as -> by lia. done. }
  assert (is_maximum fn 0%Z ∧ is_maximum fp 0%Z) as [Hfn_max Hfp_max].
  { split; (split; [exists 0, 0; apply Hzero; lia|]); intros y x w Hw'.
    - pose proof (item_Some_lt _ _ _ _ Hw') as [Hy Hx].
      destruct (Hzero y x) as [Hz _]; [lia..|]. rewrite Hz in Hw'. injection Hw' as <-. lia.
    - pose proof (item_Some_lt _ _ _ _ Hw') as [Hy Hx].
      destruct (Hzero y x) as [_ Hz]; [lia..|]. rewrite Hz in Hw'. injection Hw' as <-. lia. }
  eexists. split.
  - rewrite make_next_click_eq, Hg, (_get_click_zero_maxima pred self fn fp) by done.
    apply (add_click_in_bounds _ _ (foreground lbl) nc 0 0); [done|done|].
    apply (pixel_of_nat nc 0 0); lia.
  - by fields.
Qed.

Lemma no_error_left_clicks_origin_witness :
  ∃ self',
    make_next_click (all22 true) (run_calls [] clicker22) = (Ok tt, self') ∧
    clicks_list self' = clicks_list (run_calls [] clicker22) ++ [mk_Click false (0, 0)%Z].
Proof.
  apply (no_error_left_clicks_origin ones22 None (-1) clicker22 [] (all22 true) (all22 true));
    [reflexivity|reflexivity|reflexivity|reflexivity|simpl; lia|simpl; lia|reflexivity|].
  intros y x Hxy. pose proof (item_Some_lt _ _ _ _ Hxy) as [Hy Hx]. simpl in Hy, Hx.
  split; intros (v & Hv & H1 & Hign & Hp).
  - destruct y as [|[|y]], x as [|[|x]]; try lia; discriminate.
  - destruct y as [|[|y]], x as [|[|x]]; try lia; injection Hv as <-; done.
Defined.

(** ** What a simulated click changes, and how to undo it *)

(** X15: on a non-empty ground truth and with a prediction of its shape,
    [make_next_click] returns having appended one click, raised the
    counter of its polarity by one and marked the pixel of the click as
    clicked; no other pixel of [not_clicked_map], the other counter and the
    ground truth do not change. *)
Theorem make_next_click_marks_one_pixel pred self g :
  reachable self → gt_mask self = Some g → Np.shape pred = Np.shape g →
  1 ≤ Np.nrows g → 1 ≤ Np.ncols g →
  ∃ click self' nc nc' y x,
    make_next_click pred self = (Ok tt, self') ∧
    clicks_list self' = clicks_list self ++ [click] ∧
    coords click = (Z.of_nat y, Z.of_nat x) ∧
    not_clicked_map self = Some nc ∧ not_clicked_map self' = Some nc' ∧
    Np.item nc' y x = Some false ∧
    (∀ y' x', (y', x') ≠ (y, x) → Np.item nc' y' x' = Np.item nc y' x') ∧
    num_pos_clicks self' = (num_pos_clicks self + if is_positive click then 1 else 0)%Z ∧
    num_neg_clicks self' = (num_neg_clicks self + if is_positive click then 0 else 1)%Z ∧
    gt_mask self' = Some g ∧ not_ignore_mask self' = not_ignore_mask self.
Proof.
  intros (Hshape & _)%reachable_consistent Hg Hsp Hh Hw.
  destruct (make_next_click_selects pred self g)
    as (nc & fn & fp & fn_max & fp_max & y & x & Hnc & Hsnc & Hwf & _ & _ & _ &
        _ & _ & _ & _ & _ & _ & _ & Hy & Hx & _ & Hnext); [done..|].
  injection Hsnc as Hr Hc.
  eexists _, _, nc, _, y, x.
  split_and!; [exact Hnext|by fields|done|done|by fields| | |by fields|by fields
              |by fields|by fields].
  - apply item_stored_eq; [done|lia..].
  - intros y' x' Hne. apply item_stored_ne; [lia|done].
Qed.

Lemma make_next_click_marks_one_pixel_witness :
  ∃ click self' nc nc' y x,
    make_next_click (all22 false) clicker22 = (Ok tt, self') ∧
    clicks_list self' = clicks_list clicker22 ++ [click] ∧
    coords click = (Z.of_nat y, Z.of_nat x) ∧
    not_clicked_map clicker22 = Some nc ∧ not_clicked_map self' = Some nc' ∧
    Np.item nc' y x = Some false ∧
    (∀ y' x', (y', x') ≠ (y, x) → Np.item nc' y' x' = Np.item nc y' x') ∧
    num_pos_clicks self' =
      (num_pos_clicks clicker22 + if is_positive click then 1 else 0)%Z ∧
    num_neg_clicks self' =
      (num_neg_clicks clicker22 + if is_positive click then 0 else 1)%Z ∧
    gt_mask self' = Some (all22 true) ∧
    not_ignore_mask self' = not_ignore_mask clicker22.
Proof.
  apply (make_next_click_marks_one_pixel (all22 false) clicker22 (all22 true));
    [exact (reachable_new (Some ones22) None (-1) clicker22 eq_refl)
    |reflexivity|reflexivity|simpl; lia|simpl; lia].
Defined.

(** Adding a click on a pixel that is marked as not clicked and removing
    it again gives the object back. *)
Lemma add_click_undo click self g nc y x :
  gt_mask self = Some g → not_clicked_map self = Some nc →
  Np.pixel nc (coords click) = Some (y, x) → Np.item nc y x = Some true →
  _remove_last_click (set_not_clicked_map (stored nc y x false) (counted click self)) =
    (Ok tt, self).
Proof.
  intros Hg Hnc Hpx Htrue. rewrite _remove_last_click_eq. fields.
  rewrite last_snoc, removelast_last, Hg. cbn zeta. fields.
  rewrite setitem_eq, <- (pixel_shape nc) by done. rewrite Hpx.
  rewrite (stored_stored_id nc y x false true) by done.
  f_equal. by apply set_map_uncounted_counted.
Qed.

(** X16: while some unclicked pixel is an error of the prediction, the
    click that [make_next_click] adds is taken back exactly by
    [remove_last_click]: the object is again what it was before the two
    calls. *)
Theorem make_next_click_undone lbl init_clicks ignore_label self0 calls pred nc y0 x0 :
  new (Some lbl) init_clicks ignore_label = Ok self0 →
  Np.wf lbl → Np.wf pred → Np.shape pred = Np.shape lbl →
  not_clicked_map (run_calls calls self0) = Some nc → Np.item nc y0 x0 = Some true →
  false_negative_at lbl ignore_label pred y0 x0 ∨
    false_positive_at lbl ignore_label pred y0 x0 →
  (make_next_click pred;; _remove_last_click) (run_calls calls self0) =
    (Ok tt, run_calls calls self0).
Proof.
  intros Hnew Hwl Hwp Hsp Hnc Hnc0 Herr.
  destruct (built_on_intro lbl init_clicks ignore_label self0 calls pred)
    as (nc' & Hbuilt & Hshape & _); [done..|].
  assert (nc' = nc) as -> by (destruct Hbuilt as (_ & _ & Hnc' & _); congruence).
  destruct (built_on_selects_error lbl ignore_label pred _ nc y0 x0 Hbuilt Hshape Hnc0 Herr)
    as (click & y & x & _ & _ & Hpx & Htrue & _ & Hnext).
  unfold mbind, M_bind, bind. rewrite Hnext.
  apply (add_click_undo click _ (foreground lbl) nc y x); [apply Hbuilt|done..].
Qed.

Lemma make_next_click_undone_witness :
  (make_next_click none10;; _remove_last_click) (run_calls [] clicker_square) =
    (Ok tt, run_calls [] clicker_square).
Proof.
  apply (make_next_click_undone square10 None (-1) clicker_square [] none10
           (Np.ones_like (foreground square10)) 3 3);
    [reflexivity|reflexivity|reflexivity|reflexivity|reflexivity|reflexivity|].
  left. exists 1%Z. split_and!; [reflexivity|reflexivity|lia|reflexivity].
Defined.

(** ** The padding *)

(** X17: the frame of zeros that [_get_click] pads around the error masks
    makes the outside of the image count as background: in the masked
    distance maps an unclicked error pixel holds a distance of at least 1,
    and exactly 1 when it lies on the border of the image (distances are
    kept squared, and 1 squared is 1). *)
Theorem border_error_pixel_at_distance_one
    lbl init_clicks ignore_label self0 calls pred nc fn fp y x :
  new (Some lbl) init_clicks ignore_label = Ok self0 →
  Np.wf lbl → Np.wf pred → Np.shape pred = Np.shape lbl →
  masked_distances pred (run_calls calls self0) = Ok (fn, fp) →
  not_clicked_map (run_calls calls self0) = Some nc → Np.item nc y x = Some true →
  (false_negative_at lbl ignore_label pred y x →
     ∃ d, Np.item fn y x = Some d ∧ (1 ≤ d)%Z ∧
          (y = 0 ∨ x = 0 ∨ y + 1 = Np.nrows lbl ∨ x + 1 = Np.ncols lbl → d = 1%Z)) ∧
  (false_positive_at lbl ignore_label pred y x →
     ∃ d, Np.item fp y x = Some d ∧ (1 ≤ d)%Z ∧
          (y = 0 ∨ x = 0 ∨ y + 1 = Np.nrows lbl ∨ x + 1 = Np.ncols lbl → d = 1%Z)).
Proof.
  intros Hnew Hwl Hwp Hsp Hmd Hnc Htrue.
  destruct (built_on_intro lbl init_clicks ignore_label self0 calls pred)
    as (nc' & Hbuilt & _); [done..|].
  assert (nc' = nc) as -> by (destruct Hbuilt as (_ & _ & Hnc' & _); congruence).
  pose proof Hbuilt as (_ & _ & _ & Hsnc & _). injection Hsnc as Hncr Hncc.
  pose proof (item_Some_lt _ _ _ _ Htrue) as [Hy Hx].
  destruct (built_on_pixel lbl ignore_label pred _ nc fn fp y x Hbuilt Hmd)
    as (v & bp & bc & vfn & vfp & Hv & Hbp & Hbc & Hfn & Hfp & _ & _ &
        Hiff_fn & Hiff_fp & Hborder); [lia..|].
  rewrite Htrue in Hbc. injection Hbc as <-.
  split.
  - intros (v' & Hv' & -> & Hign & Hp). rewrite Hv in Hv'. injection Hv' as ->.
    rewrite Hbp in Hp. injection Hp as ->.
    assert (0 < vfn)%Z by (by apply Hiff_fn).
    exists vfn. split_and!; [done|lia|]. intros Hb. destruct (Hborder Hb). lia.
  - intros (v' & Hv' & Hne & Hign & Hp). rewrite Hv in Hv'. injection Hv' as <-.
    rewrite Hbp in Hp. injection Hp as ->.
    assert (0 < vfp)%Z by (by apply Hiff_fp).
    exists vfp. split_and!; [done|lia|]. intros Hb. destruct (Hborder Hb). lia.
Qed.

Lemma border_error_pixel_at_distance_one_witness :
  ∃ fn fp,
    masked_distances (all22 false) (run_calls [] clicker22) = Ok (fn, fp) ∧
    ((false_negative_at ones22 (-1) (all22 false) 1 0 →
        ∃ d, Np.item fn 1 0 = Some d ∧ (1 ≤ d)%Z ∧
             (1 = 0 ∨ 0 = 0 ∨ 1 + 1 = Np.nrows ones22 ∨ 0 + 1 = Np.ncols ones22 →
              d = 1%Z)) ∧
     (false_positive_at ones22 (-1) (all22 false) 1 0 →
        ∃ d, Np.item fp 1 0 = Some d ∧ (1 ≤ d)%Z ∧
             (1 = 0 ∨ 0 = 0 ∨ 1 + 1 = Np.nrows ones22 ∨ 0 + 1 = Np.ncols ones22 →
              d = 1%Z))).
Proof.
  destruct (masked_distances (all22 false) (run_calls [] clicker22)) as [[fn fp]|e] eqn:Hmd;
    [|vm_compute in Hmd; discriminate].
  exists fn, fp. split; [reflexivity|].
  apply (border_error_pixel_at_distance_one ones22 None (-1) clicker22 [] (all22 false)
           (all22 true) fn fp 1 0);
    [reflexivity|reflexivity|reflexivity|reflexivity|exact Hmd|reflexivity|reflexivity].
Defined.

(** ** More on the click history *)

(** X18: [set_state] with clicks that all lie in the mask returns, and
    afterwards [get_state] gives back exactly the list that was set, the
    counters count its clicks by polarity and each of its clicks is marked
    in [not_clicked_map]. *)
Theorem get_state_after_set_state self state :
  reachable self →
  (∀ nc click, not_clicked_map self = Some nc → click ∈ state →
     is_Some (Np.pixel nc (coords click))) →
  ∃ self',
    set_state state self = (Ok tt, self') ∧
    get_state self' = (Ok state, self') ∧
    num_pos_clicks self' = count_clicks true state ∧
    num_neg_clicks self' = count_clicks false state ∧
    clicks_marked self'.
Proof.
  intros Hc%reachable_consistent Hin.
  pose proof (reset_clicks_consistent self Hc) as Hc0. rewrite reset_clicks_eq in Hc0.
  cbn [snd] in Hc0.
  destruct (for_each_add_click_Ok state (cleared self))
    as (self' & Hrun & Hc' & Hcover' & _ & _ & Hl'); [done| | |].
  { intros nc click _ Hin'. by apply elem_of_nil in Hin'. }
  { intros nc0 click Hnc0 Hin'. fields in Hnc0.
    destruct Hc as (Hshape & Hnone & _).
    destruct (gt_mask self) as [g|] eqn:Hg.
    - destruct (Hshape g Hg) as (ni & nc & Hni & Hnc & Hsni & Hsnc & Hwf).
      injection Hnc0 as <-. rewrite (pixel_shape _ nc) by done. by apply (Hin nc).
    - rewrite Hnone in Hnc0; done. }
  fields in Hl'. rewrite app_nil_l in Hl'.
  exists self'. rewrite set_state_eq. split; [done|].
  destruct Hc' as (_ & _ & Hpos & Hneg & _). rewrite Hl' in Hpos, Hneg.
  split_and!; [|done..]. unfold get_state, read. by rewrite Hl'.
Qed.

Lemma get_state_after_set_state_witness :
  ∃ self',
    set_state five_clicks clicker22_clicked = (Ok tt, self') ∧
    get_state self' = (Ok five_clicks, self') ∧
    num_pos_clicks self' = count_clicks true five_clicks ∧
    num_neg_clicks self' = count_clicks false five_clicks ∧
    clicks_marked self'.
Proof.
  apply (get_state_after_set_state clicker22_clicked five_clicks).
  - apply (reachable_call (MakeNextClick (all22 false)) clicker22 (Ok tt));
      [exact (reachable_new (Some ones22) None (-1) clicker22 eq_refl)|reflexivity].
  - intros nc click Hnc Hin. injection Hnc as <-. unfold five_clicks in Hin.
    repeat (apply elem_of_cons in Hin as [->|Hin]; [by eexists|]).
    by apply elem_of_nil in Hin.
Defined.

(** X19: a Clicker constructed without ground truth is a plain click list:
    the constructor accepts any initial clicks, [add_click] returns for any
    coordinates and only appends, and [set_state(get_state())] changes
    nothing, in every state. *)
Theorem clicker_without_gt_is_a_list init_clicks ignore_label calls click :
  ∃ self0,
    new None init_clicks ignore_label = Ok self0 ∧
    clicks_list self0 = default [] init_clicks ∧
    (∃ self', add_click click (run_calls calls self0) = (Ok tt, self') ∧
              clicks_list self' = clicks_list (run_calls calls self0) ++ [click] ∧
              not_clicked_map self' = None) ∧
    (state ← get_state; set_state state) (run_calls calls self0) =
      (Ok tt, run_calls calls self0).
Proof.
  assert (consistent blank) as Hblank.
  { apply (new_consistent None None ignore_label). unfold new. by rewrite __init___eq. }
  assert (∃ self0, new None init_clicks ignore_label = Ok self0 ∧
                   clicks_list self0 = default [] init_clicks) as (self0 & Hnew & Hl0).
  { unfold new. rewrite __init___eq. destruct init_clicks as [clicks|]; [|by eexists].
    destruct (for_each_add_click_Ok clicks blank) as (s & Hrun & _ & _ & _ & _ & Hl);
      [done| | |].
    - intros nc c _ Hin. by apply elem_of_nil in Hin.
    - intros nc c Hnc. discriminate.
    - cbn [fresh]. rewrite Hrun. by eexists. }
  exists self0. split; [done|]. split; [done|].
  pose proof (run_calls_no_gt calls self0 (new_no_gt _ _ _ Hnew)) as Hg. unfold no_gt in Hg.
  assert (consistent (run_calls calls self0)) as Hc.
  { apply reachable_consistent, run_calls_reachable. by eapply reachable_new. }
  pose proof Hc as (_ & Hnone & _). specialize (Hnone Hg).
  split.
  - eexists. rewrite add_click_eq, Hg. split; [done|]. by fields.
  - unfold mbind, M_bind, bind, get_state, read. rewrite set_state_eq.
    apply replay_restores; [done|]. intros nc c Hnc. congruence.
Qed.

(** X20: [_remove_last_click] marks the pixel of the click it removes as not
    clicked without looking at the rest of the list: the mark is lifted
    also when an earlier click on the same pixel stays in the list. *)
Theorem remove_last_click_unmarks self g nc rest click y x :
  gt_mask self = Some g → not_clicked_map self = Some nc → Np.wf nc →
  clicks_list self = rest ++ [click] →
  Np.pixel nc (coords click) = Some (y, x) →
  ∃ self' nc',
    _remove_last_click self = (Ok tt, self') ∧ clicks_list self' = rest ∧
    not_clicked_map self' = Some nc' ∧ Np.item nc' y x = Some true ∧
    (∀ y' x', (y', x') ≠ (y, x) → Np.item nc' y' x' = Np.item nc y' x').
Proof.
  intros Hg Hnc Hwf Hl Hpx. pose proof (pixel_lt _ _ _ _ Hpx) as [Hy Hx].
  rewrite _remove_last_click_eq, Hl, last_snoc, removelast_last, Hg, Hnc, setitem_eq, Hpx.
  cbn zeta. eexists _, _. split; [done|]. fields. split_and!; [done|done| |].
  - by apply item_stored_eq.
  - intros y' x' Hne. by apply item_stored_ne.
Qed.

Lemma remove_last_click_unmarks_witness :
  ∃ self' nc',
    _remove_last_click
        (run_calls [AddClick (mk_Click true (0, 0)%Z); AddClick (mk_Click false (0, 0)%Z)]
                   clicker22) = (Ok tt, self') ∧
    clicks_list self' = [mk_Click true (0, 0)%Z] ∧
    not_clicked_map self' = Some nc' ∧ Np.item nc' 0 0 = Some true ∧
    (∀ y' x', (y', x') ≠ (0, 0) →
       Np.item nc' y' x' = Np.item (Np.mk_ndarray 2 2 [false; true; true; true]) y' x').
Proof.
  apply (remove_last_click_unmarks _ (all22 true)
           (Np.mk_ndarray 2 2 [false; true; true; true])
           [mk_Click true (0, 0)%Z] (mk_Click false (0, 0)%Z) 0 0); reflexivity.
Defined.
